(** * mdweaver: the markdown normalizer and the file collector

    A shallow embedding of [preprocess_markdown], [get_md_files],
    [generate_pdf] and [generate_epub] of [src/md2pdf/generate_pdf.py].

    Python strings are modelled as lists of characters.  A character is a
    code point in the range U+0000..U+00FF (the type [ascii]); on that
    range Python's character classes are the ones written out below. *)

From Stdlib Require Import Ascii String List Bool Arith Lia.
From Stdlib Require Import Permutation Sorted Orders Mergesort.
From Equations Require Import Equations.
From Equations.Prop Require Import Logic.
Import ListNotations.

Set Implicit Arguments.

(** ** Strings *)

Definition str := list ascii.

(** A string literal of the source. *)
Definition lit (s : string) : str := list_ascii_of_string s.

Definition chr_nl : ascii := "010"%char.
Definition chr_bt : ascii := "`"%char.
Definition chr_lt : ascii := "<"%char.
Definition chr_gt : ascii := ">"%char.

Definition code (c : ascii) : nat := nat_of_ascii c.

(** [str.isspace] on U+0000..U+00FF: TAB..CR, FS..US, SPACE, NEL, NBSP. *)
Definition is_space (c : ascii) : bool :=
  let n := code c in
  ((9 <=? n) && (n <=? 13)) || ((28 <=? n) && (n <=? 32))
  || (n =? 133) || (n =? 160).

(** The regex class [\d] on U+0000..U+00FF. *)
Definition is_digit (c : ascii) : bool :=
  let n := code c in (48 <=? n) && (n <=? 57).

(** The regex class [[A-Z]]. *)
Definition is_upper (c : ascii) : bool :=
  let n := code c in (65 <=? n) && (n <=? 90).

Definition not_bt (c : ascii) : bool := negb (Ascii.eqb c chr_bt).
Definition not_gt (c : ascii) : bool := negb (Ascii.eqb c chr_gt).

Fixpoint take_while (p : ascii -> bool) (s : str) : str :=
  match s with
  | c :: t => if p c then c :: take_while p t else []
  | [] => []
  end.

Fixpoint drop_while (p : ascii -> bool) (s : str) : str :=
  match s with
  | c :: t => if p c then drop_while p t else s
  | [] => []
  end.

(** [s.startswith(prefix)] *)
Fixpoint startswith (prefix s : str) : bool :=
  match prefix, s with
  | [], _ => true
  | _ :: _, [] => false
  | a :: p', b :: s' => Ascii.eqb a b && startswith p' s'
  end.

(** [s.endswith(suffix)] *)
Definition endswith (suffix s : str) : bool :=
  startswith (rev suffix) (rev s).

(** [s.strip()] *)
Definition lstrip (s : str) : str := drop_while is_space s.
Definition strip (s : str) : str := rev (lstrip (rev (lstrip s))).

Definition is_empty (s : str) : bool :=
  match s with [] => true | _ :: _ => false end.

(** [s.split("\n")]: never empty, [[""]] for the empty string. *)
Fixpoint split_lines (s : str) : list str :=
  match s with
  | [] => [[]]
  | c :: t =>
      if Ascii.eqb c chr_nl then [] :: split_lines t
      else match split_lines t with
           | l :: ls => (c :: l) :: ls
           | [] => [[c]]
           end
  end.

(** ["\n".join(ls)] *)
Fixpoint join_lines (ls : list str) : str :=
  match ls with
  | [] => []
  | [l] => l
  | l :: ls' => l ++ chr_nl :: join_lines ls'
  end.

(** ** The regular expressions of the normalizer *)

(** The pattern [`[^`]+`] anchored at the head of [s]: the matched span
    and the text after it. *)
Definition match_span (s : str) : option (str * str) :=
  match s with
  | c :: t =>
      if Ascii.eqb c chr_bt then
        match take_while not_bt t, drop_while not_bt t with
        | (_ :: _) as body, q :: rest => Some (c :: body ++ [q], rest)
        | _, _ => None
        end
      else None
  | [] => None
  end.

(** [pattern.search]: the leftmost position where the anchored matcher
    [match_at] succeeds; the text before the match, what the matcher
    returns, and the text after the match. *)
Fixpoint search (match_at : str -> option (str * str)) (s : str)
    : option (str * str * str) :=
  match s with
  | [] => None
  | c :: t =>
      match match_at (c :: t) with
      | Some (m, rest) => Some ([], m, rest)
      | None =>
          match search match_at t with
          | Some (before, m, rest) => Some (c :: before, m, rest)
          | None => None
          end
      end
  end.

Lemma drop_while_length p (u : str) : length (drop_while p u) <= length u.
Proof.
  induction u as [|a u IH]; simpl; [lia|].
  destruct (p a); simpl; lia.
Qed.

Lemma match_span_length s m rest :
  match_span s = Some (m, rest) -> length rest < length s.
Proof.
  destruct s as [|c t]; simpl; [discriminate|].
  destruct (Ascii.eqb c chr_bt); [|discriminate].
  destruct (take_while not_bt t) eqn:Ht; [discriminate|].
  destruct (drop_while not_bt t) eqn:Hd; [discriminate|].
  intros H; injection H as _ <-.
  pose proof (drop_while_length not_bt t) as Hlen.
  rewrite Hd in Hlen. simpl in Hlen. lia.
Qed.

Lemma search_length match_at :
  (forall s m rest, match_at s = Some (m, rest) -> length rest < length s) ->
  forall s before m rest,
    search match_at s = Some (before, m, rest) -> length rest < length s.
Proof.
  intros Hm s. induction s as [|c t IH]; intros before m rest;
    [discriminate|].
  cbn [search].
  destruct (match_at (c :: t)) as [[m' r']|] eqn:E.
  - intros H; injection H as _ _ <-. now apply Hm in E.
  - destruct (search match_at t) as [[[b' m'] r']|]; [|discriminate].
    intros H; injection H as _ _ <-.
    specialize (IH _ _ _ eq_refl). simpl. lia.
Qed.

(** [re.split(r"(`[^`]+`)", line)]: the text between matches alternating
    with the matches themselves. *)
Equations? re_split (s : str) : list str by wf (length s) lt :=
  re_split s with inspect (search match_span s) => {
    | exist _ (Some (before, m, rest)) H => before :: m :: re_split rest;
    | exist _ None _ => [s] }.
Proof. eapply (search_length match_span match_span_length); eauto. Qed.

(** The pattern that escapes a generic: [<], then group 1 made of one
    [[A-Z]] and any run of characters other than [>], then [>]; anchored at
    the head of [s].  The result is group 1 and the text after the match. *)
Definition match_generic (s : str) : option (str * str) :=
  match s with
  | c :: u :: t =>
      if Ascii.eqb c chr_lt && is_upper u then
        match drop_while not_gt t with
        | _ :: rest => Some (u :: take_while not_gt t, rest)
        | [] => None
        end
      else None
  | _ => None
  end.

Lemma match_generic_length s g rest :
  match_generic s = Some (g, rest) -> length rest < length s.
Proof.
  destruct s as [|c [|u t]]; simpl; try discriminate.
  destruct (Ascii.eqb c chr_lt && is_upper u); [|discriminate].
  destruct (drop_while not_gt t) eqn:Hd; [discriminate|].
  intros H; injection H as _ <-.
  pose proof (drop_while_length not_gt t) as Hlen.
  rewrite Hd in Hlen. simpl in Hlen. lia.
Qed.

Definition ent_lt : str := lit "&lt;".
Definition ent_gt : str := lit "&gt;".

(** [re.sub] of that pattern with the replacement [&lt;\1&gt;]: the text
    between the matches is copied, each match is replaced. *)
Equations? re_sub (s : str) : str by wf (length s) lt :=
  re_sub s with inspect (search match_generic s) => {
    | exist _ (Some (before, g, rest)) H =>
        before ++ ent_lt ++ g ++ ent_gt ++ re_sub rest;
    | exist _ None _ => s }.
Proof. eapply (search_length match_generic match_generic_length); eauto. Qed.

(** [re.match(r"^\d+\. ", line)], as a truth value. *)
Definition match_numbered (s : str) : bool :=
  match take_while is_digit s, drop_while is_digit s with
  | _ :: _, d :: sp :: _ => Ascii.eqb d "."%char && Ascii.eqb sp " "%char
  | _, _ => false
  end.

(** ** preprocess_markdown *)

Definition fence : str := lit "```".
Definition bullet : str := lit "- ".
Definition hash : str := lit "#".

(** [line.strip().startswith("```")] *)
Definition is_fence (line : str) : bool := startswith fence (strip line).

(** Fix 1, the body of [for part in parts]. *)
Definition escape_part (part : str) : str :=
  if startswith [chr_bt] part && endswith [chr_bt] part then part
  else re_sub part.

(** Fix 1: the line after [line = "".join(result)]. *)
Definition escape_line (line : str) : str :=
  concat (map escape_part (re_split line)).

Definition is_list_item (line : str) : bool :=
  startswith bullet line || match_numbered line.

(** The inner condition of fix 2 on [prev_line]. *)
Definition needs_blank (prev_line : str) : bool :=
  negb (is_empty (strip prev_line))
  && negb (startswith bullet prev_line)
  && negb (match_numbered prev_line)
  && negb (startswith hash prev_line).

(** The loop [for i, line in enumerate(lines)], from index [i] on, with the
    two variables it updates. *)
Fixpoint loop (i : nat) (lines : list str)
    (in_code_block : bool) (processed_lines : list str) : bool * list str :=
  match lines with
  | [] => (in_code_block, processed_lines)
  | line :: rest =>
      if is_fence line then
        loop (S i) rest (negb in_code_block) (processed_lines ++ [line])
      else if negb in_code_block then
        let line := escape_line line in
        let processed_lines :=
          if (0 <? i) && is_list_item line then
            let prev_line := last processed_lines [] in
            if needs_blank prev_line then processed_lines ++ [[]]
            else processed_lines
          else processed_lines in
        loop (S i) rest in_code_block (processed_lines ++ [line])
      else
        loop (S i) rest in_code_block (processed_lines ++ [line])
  end.

Definition process_lines (lines : list str) : list str :=
  snd (loop 0 lines false []).

(** The value of [in_code_block] when the loop ends. *)
Definition final_in_code_block (lines : list str) : bool :=
  fst (loop 0 lines false []).

Definition preprocess_markdown (md_content : str) : str :=
  join_lines (process_lines (split_lines md_content)).

(** *** The examples of the test suite *)

Example escapes_generic_types :
  preprocess_markdown (lit "The function returns Result<T, E> for errors.")
  = lit "The function returns Result&lt;T, E&gt; for errors.".
Proof. vm_compute. reflexivity. Qed.

Example preserves_backtick_code :
  preprocess_markdown (lit "Use `Result<T, E>` for error handling.")
  = lit "Use `Result<T, E>` for error handling.".
Proof. vm_compute. reflexivity. Qed.

Example adds_blank_line_before_list :
  process_lines [lit "Some paragraph text."; lit "- Item 1"; lit "- Item 2"]
  = [lit "Some paragraph text."; []; lit "- Item 1"; lit "- Item 2"].
Proof. vm_compute. reflexivity. Qed.

Example no_extra_blank_after_header :
  process_lines [lit "## Header"; lit "- Item 1"]
  = [lit "## Header"; lit "- Item 1"].
Proof. vm_compute. reflexivity. Qed.

Example nested_generic :
  preprocess_markdown (lit "Vec<Option<T>>") = lit "Vec&lt;Option<T&gt;>"
  /\ preprocess_markdown (lit "Vec&lt;Option<T&gt;>")
     = lit "Vec&lt;Option&lt;T&gt;&gt;".
Proof. split; vm_compute; reflexivity. Qed.


(** ** The loop as a stream of emitted lines *)

(** The number of lines that toggle [in_code_block]. *)
Definition count_fences (lines : list str) : nat :=
  length (filter is_fence lines).

(** The flag after the lines [lines], started with the value [b]. *)
Definition flag_after (b : bool) (lines : list str) : bool :=
  xorb b (Nat.odd (count_fences lines)).

(** What fix 2 puts in front of a list item: [prev] is the line emitted
    last, [None] on the first line of the document. *)
Definition blank_before (prev : option str) (line : str) : list str :=
  match prev with
  | Some prev_line =>
      if is_list_item line && needs_blank prev_line then [[]] else []
  | None => []
  end.

(** The lines the loop appends to [processed_lines]. *)
Fixpoint emit (prev : option str) (in_code_block : bool)
    (lines : list str) : list str :=
  match lines with
  | [] => []
  | line :: rest =>
      if is_fence line then
        line :: emit (Some line) (negb in_code_block) rest
      else if negb in_code_block then
        blank_before prev (escape_line line)
        ++ escape_line line :: emit (Some (escape_line line)) in_code_block rest
      else
        line :: emit (Some line) in_code_block rest
  end.

(** The line emitted last, once [out] has been appended. *)
Definition last_emitted (prev : option str) (out : list str) : option str :=
  match out with
  | [] => prev
  | _ :: _ => Some (last out [])
  end.

(** Nothing has been appended to [processed_lines] yet. *)
Definition nothing_emitted (acc : list str) : bool :=
  match acc with [] => true | _ :: _ => false end.

(** ** Predicates and relations used to state the properties *)

(** No match starts inside [before] when [tail] follows it. *)
Definition free (match_at : str -> option (str * str)) (before tail : str)
    : Prop :=
  forall b1 b2, before = b1 ++ b2 -> b2 <> [] -> match_at (b2 ++ tail) = None.

(** A backtick, one or more characters other than a backtick, a backtick. *)
Inductive is_span : str -> Prop :=
| is_span_intro body :
    body <> [] -> forallb not_bt body = true ->
    is_span (chr_bt :: body ++ [chr_bt]).

Definition has_bt (s : str) : bool :=
  existsb (fun c => Ascii.eqb c chr_bt) s.

(** The first character exists and is not a backtick. *)
Definition starts_text (s : str) : bool :=
  match s with d :: _ => not_bt d | [] => false end.

Definition has_gt (s : str) : bool :=
  existsb (fun c => Ascii.eqb c chr_gt) s.

Definition has_lt (s : str) : bool :=
  existsb (fun c => Ascii.eqb c chr_lt) s.

Definition has_nl (s : str) : bool :=
  existsb (fun c => Ascii.eqb c chr_nl) s.

(** [s'] is [s] with some of its angle brackets written as entities:
    undoing those replacements gives [s] back. *)
Inductive Ent : str -> str -> Prop :=
| Ent_nil : Ent [] []
| Ent_keep c s s' : Ent s s' -> Ent (c :: s) (c :: s')
| Ent_lt s s' : Ent s s' -> Ent (chr_lt :: s) (ent_lt ++ s')
| Ent_gt s s' : Ent s s' -> Ent (chr_gt :: s) (ent_gt ++ s').

(** The two ways the loop emits a line: as read, or escaped by fix 1. *)
Inductive rewritten (line : str) : str -> Prop :=
| rewritten_same : rewritten line line
| rewritten_escaped : rewritten line (escape_line line).

(** [out] is [lines] with each line replaced by a line related to it by
    [R], in the same order, with empty lines possibly inserted in front of
    some of them. *)
Inductive Woven (R : str -> str -> Prop) : list str -> list str -> Prop :=
| Woven_nil : Woven R [] []
| Woven_line l l' ls out :
    R l l' -> Woven R ls out -> Woven R (l :: ls) (l' :: out)
| Woven_blank l l' ls out :
    R l l' -> Woven R ls out -> Woven R (l :: ls) ([] :: l' :: out).

(** An occurrence of the pattern starts at the head of [s]: [<], an
    uppercase letter, any characters, [>]. *)
Definition occurrence_at (s : str) : Prop :=
  exists u inner tail,
    s = chr_lt :: u :: inner ++ chr_gt :: tail /\ is_upper u = true.

(** The replacement as the specification words it, read from left to
    right: an occurrence is replaced up to its first [>], and the scan goes
    on after it; a character where no occurrence starts is copied. *)
Inductive Escaped : str -> str -> Prop :=
| Escaped_nil : Escaped [] []
| Escaped_hit u inner rest rest' :
    is_upper u = true -> has_gt inner = false -> Escaped rest rest' ->
    Escaped (chr_lt :: u :: inner ++ chr_gt :: rest)
            (ent_lt ++ u :: inner ++ ent_gt ++ rest')
| Escaped_skip c rest rest' :
    ~ occurrence_at (c :: rest) -> Escaped rest rest' ->
    Escaped (c :: rest) (c :: rest').

(** Wherever the pattern matches in [s], its group holds no further [<]. *)
Fixpoint nested_free (s : str) : bool :=
  match s with
  | [] => true
  | c :: t =>
      match match_generic (c :: t) with
      | Some (g, _) => negb (has_lt g) && nested_free t
      | None => nested_free t
      end
  end.

(** The parts of a line that fix 1 rewrites hold no nested occurrence. *)
Definition flat_part (part : str) : bool :=
  (startswith [chr_bt] part && endswith [chr_bt] part) || nested_free part.

Definition flat_line (line : str) : bool :=
  forallb flat_part (re_split line).

(** The same for the lines of a document that fix 1 rewrites: those outside
    fenced code. *)
Fixpoint flat_lines (in_code_block : bool) (lines : list str) : bool :=
  match lines with
  | [] => true
  | line :: rest =>
      if is_fence line then flat_lines (negb in_code_block) rest
      else (in_code_block || flat_line line) && flat_lines in_code_block rest
  end.

(** [w] occurs in [s]. *)
Fixpoint is_infix (w s : str) : bool :=
  startswith w s
  || match s with
     | [] => false
     | _ :: t => is_infix w t
     end.

(** Every part of [line] that the split isolates as a code span stands in
    [line'] as it was, between the texts that come from the parts before it
    and from the parts after it. *)
Definition spans_kept (line line' : str) : Prop :=
  forall before part after,
    re_split line = before ++ part :: after ->
    is_span part ->
    exists x y,
      line' = x ++ part ++ y
      /\ Ent (concat before) x /\ Ent (concat after) y.

(** No line has an odd number of backticks. *)
Definition paired_backticks (s : str) : Prop :=
  Forall (fun l => Nat.even (count_occ ascii_dec l chr_bt) = true)
         (split_lines s).

(** What a match of the span pattern may see of the text after [before]:
    whether it starts with ordinary text and whether a backtick follows. *)
Definition tails_alike (t t' : str) : Prop :=
  starts_text t' = starts_text t /\ has_bt t' = has_bt t.

(** A prefix that holds none of [<], [>] and [&]. *)
Definition plain (p : str) : bool :=
  forallb (fun c => negb (Ascii.eqb c chr_lt) && negb (Ascii.eqb c chr_gt)
                    && negb (Ascii.eqb c "&"%char)) p.

(** ** Paths and the file system *)

(** A [pathlib.Path], as the list of its components below the root. *)
Definition Path := list str.

Inductive kind := RegularFile | Directory.

(** The file system, as the paths that exist and what each one is. *)
Definition filesystem := list (Path * kind).

Definition str_eqb (a b : str) : bool :=
  if list_eq_dec ascii_dec a b then true else false.

Definition path_eqb (p q : Path) : bool :=
  if list_eq_dec (list_eq_dec ascii_dec) p q then true else false.

Fixpoint lookup (fs : filesystem) (p : Path) : option kind :=
  match fs with
  | [] => None
  | (q, k) :: fs' => if path_eqb q p then Some k else lookup fs' p
  end.

(** [str(path)], for a path below the root. *)
Definition path_str (p : Path) : str :=
  concat (map (fun component => "/"%char :: component) p).

(** [path.exists()] *)
Definition path_exists (fs : filesystem) (p : Path) : bool :=
  match lookup fs p with Some _ => true | None => false end.

(** [path.is_file()] *)
Definition is_file (fs : filesystem) (p : Path) : bool :=
  match lookup fs p with Some RegularFile => true | _ => false end.

(** [path.name]: the last component. *)
Definition name (p : Path) : str := last p [].

(** [name.rfind(".")], [None] for -1. *)
Fixpoint rfind_dot (s : str) : option nat :=
  match s with
  | [] => None
  | c :: t =>
      match rfind_dot t with
      | Some i => Some (S i)
      | None => if Ascii.eqb c "."%char then Some 0 else None
      end
  end.

(** [path.suffix]: from the last dot on, unless that dot is the first or
    the last character of the name. *)
Definition suffix (p : Path) : str :=
  match rfind_dot (name p) with
  | Some i =>
      if (0 <? i) && (i <? length (name p) - 1) then skipn i (name p) else []
  | None => []
  end.

(** [path.stem]: the name without its suffix. *)
Definition stem (p : Path) : str :=
  match rfind_dot (name p) with
  | Some i =>
      if (0 <? i) && (i <? length (name p) - 1) then firstn i (name p)
      else name p
  | None => name p
  end.

(** [str.lower] on U+0000..U+00FF: the letters A-Z and the accented
    capitals U+00C0..U+00DE, the sign U+00D7 apart. *)
Definition lower_char (c : ascii) : ascii :=
  let n := code c in
  if ((65 <=? n) && (n <=? 90))
     || ((192 <=? n) && (n <=? 222) && negb (n =? 215))
  then ascii_of_nat (n + 32) else c.

Definition lower (s : str) : str := map lower_char s.

(** The pattern [*.md] against the name of a directory entry; names that
    start with a dot are matched like the others, and letter case counts. *)
Definition matches_md (entry_name : str) : bool :=
  endswith (lit ".md") entry_name.

(** [q] is an entry of the directory [d]. *)
Definition child_of (d q : Path) : bool :=
  match rev q with
  | _ :: parent => path_eqb (rev parent) d
  | [] => false
  end.

(** [q] lies below the directory [d], at any depth. *)
Fixpoint below (d q : Path) : bool :=
  match d, q with
  | [], _ :: _ => true
  | x :: d', y :: q' => str_eqb x y && below d' q'
  | _, [] => false
  end.

(** [path.glob(pattern)] for the two patterns the program uses, in the
    order the file system lists the entries. *)
Definition glob (fs : filesystem) (d : Path) (pattern : str) : list Path :=
  if str_eqb pattern (lit "**/*.md") then
    filter (fun q => below d q && matches_md (name q)) (map fst fs)
  else if str_eqb pattern (lit "*.md") then
    filter (fun q => child_of d q && matches_md (name q)) (map fst fs)
  else [].

(** The order of [Path] objects: component by component, each component
    by code points. *)
Fixpoint lex_compare (A : Type) (cmp : A -> A -> comparison)
    (a b : list A) : comparison :=
  match a, b with
  | [], [] => Eq
  | [], _ :: _ => Lt
  | _ :: _, [] => Gt
  | x :: a', y :: b' =>
      match cmp x y with
      | Eq => lex_compare cmp a' b'
      | c => c
      end
  end.

Definition char_compare (x y : ascii) : comparison :=
  Nat.compare (code x) (code y).

Definition str_compare : str -> str -> comparison := lex_compare char_compare.

Definition path_compare : Path -> Path -> comparison :=
  lex_compare str_compare.

Definition path_leb (p q : Path) : bool :=
  match path_compare p q with Gt => false | _ => true end.

Lemma lex_compare_antisym (A : Type) (cmp : A -> A -> comparison) :
  (forall x y, cmp y x = CompOpp (cmp x y)) ->
  forall a b, lex_compare cmp b a = CompOpp (lex_compare cmp a b).
Proof.
  intros Hc. induction a as [|x a IH]; destruct b as [|y b]; cbn; auto.
  rewrite (Hc x y). destruct (cmp x y); cbn; auto.
Qed.

Lemma path_compare_antisym p q :
  path_compare q p = CompOpp (path_compare p q).
Proof.
  apply lex_compare_antisym. apply lex_compare_antisym.
  intros x y. unfold char_compare. apply Nat.compare_antisym.
Qed.

Module PathOrder <: TotalLeBool.
Definition t := Path.
Definition leb := path_leb.
Lemma leb_total : forall p q, leb p q = true \/ leb q p = true.
Proof.
  intros p q. unfold leb, path_leb. rewrite (path_compare_antisym p q).
  destruct (path_compare p q); cbn; auto.
Qed.
End PathOrder.

Module PathSort := Sort PathOrder.

Definition path_le (p q : Path) : Prop := path_leb p q = true.

(** [sorted(paths)] *)
Definition sorted (paths : list Path) : list Path := PathSort.sort paths.

(** ** get_md_files *)

Definition get_md_files (fs : filesystem) (path : Path) (recursive : bool)
    : list Path :=
  if is_file fs path then
    if str_eqb (lower (suffix path)) (lit ".md") then [path] else []
  else
    let pattern := if recursive then lit "**/*.md" else lit "*.md" in
    let md_files := sorted (glob fs path pattern) in
    filter (is_file fs) md_files.

(** *** The fixtures of the test suite *)

Definition sample_md_dir : filesystem :=
  [ ([lit "docs"], Directory);
    ([lit "docs"; lit "02-getting-started.md"], RegularFile);
    ([lit "docs"; lit "01-intro.md"], RegularFile);
    ([lit "docs"; lit "subdir"], Directory);
    ([lit "docs"; lit "subdir"; lit "03-advanced.md"], RegularFile);
    ([lit "docs"; lit "notes.txt"], RegularFile) ].

Example directory_recursive :
  get_md_files sample_md_dir [lit "docs"] true
  = [ [lit "docs"; lit "01-intro.md"];
      [lit "docs"; lit "02-getting-started.md"];
      [lit "docs"; lit "subdir"; lit "03-advanced.md"] ].
Proof. vm_compute. reflexivity. Qed.

Example directory_non_recursive :
  get_md_files sample_md_dir [lit "docs"] false
  = [ [lit "docs"; lit "01-intro.md"];
      [lit "docs"; lit "02-getting-started.md"] ].
Proof. vm_compute. reflexivity. Qed.

Example non_md_file_returns_empty :
  get_md_files sample_md_dir [lit "docs"; lit "notes.txt"] true = [].
Proof. vm_compute. reflexivity. Qed.

Example single_md_file :
  get_md_files sample_md_dir [lit "docs"; lit "01-intro.md"] true
  = [[lit "docs"; lit "01-intro.md"]].
Proof. vm_compute. reflexivity. Qed.

(** ** generate_pdf and generate_epub *)

(** What the two functions print, one constructor for each [print]. *)
Inductive message :=
| PathNotFound (input_path : Path)
| NoMarkdownFiles (input_path : Path)
| Found (count : nat) (input_path : Path) (version : str)
| Processing (file_name : str)
| Generating (output_file : Path)
| Generated (output_file : Path).

(** How a call ends: [sys.exit(status)], an exception of a collaborator
    or of the read of the version that nothing catches, or
    [return output_file]. *)
Inductive outcome :=
| SysExit (status : nat)
| Raised
| Returned (output_file : Path).

(** A call: what it has printed, how it ended, and the artifacts it has
    written in full. *)
Record run := {
  printed : list message;
  ending : outcome;
  written : list Path
}.

(** The file EXPORT_VERSION beside the module: missing; there, with the
    text that [read_text] returns; or there and not readable, so that
    [read_text] raises (a directory, no permission, bytes that do not
    decode). *)
Inductive version_source :=
| NoVersionFile
| VersionText (text : str)
| VersionUnreadable.

(** How [epub.write_epub] ends: the file is written; or the write fails
    with an [IOError], which ebooklib ignores, and the call returns all the
    same; or another exception leaves the call. *)
Inductive epub_write :=
| EpubWritten
| EpubWriteIgnored
| EpubWriteRaised.

(** What the functions meet in their surroundings: the file system, which
    answers the tests on the input path and the directory scan; the file
    EXPORT_VERSION; and whether the collaborators return normally: reading
    and converting a markdown file, [output_dir.mkdir], building the style
    sheet and [write_pdf] of weasyprint, and [write_epub] of ebooklib. *)
Record world := {
  files : filesystem;
  version_file : version_source;
  converts : Path -> bool;
  mkdir : Path -> bool;
  write_pdf : Path -> bool;
  write_epub : Path -> epub_write
}.

(** [None] stands for the exception of [read_text]. *)
Definition get_export_version (w : world) : option str :=
  match version_file w with
  | NoVersionFile => Some (lit "0.0")
  | VersionText text => Some (strip text)
  | VersionUnreadable => None
  end.

Fixpoint split_slash (s : str) : list str :=
  match s with
  | [] => [[]]
  | c :: t =>
      if Ascii.eqb c "/"%char then [] :: split_slash t
      else match split_slash t with
           | l :: ls => (c :: l) :: ls
           | [] => [[c]]
           end
  end.

(** The components of a relative path written as a string. *)
Definition segments (s : str) : list str :=
  filter (fun x => negb (str_eqb x []) && negb (str_eqb x (lit ".")))
         (split_slash s).

(** [directory / s] *)
Definition path_div (directory : Path) (s : str) : Path :=
  if startswith (lit "/") s then segments s else directory ++ segments s.

(** The loop [for i, md_file in enumerate(md_files)]: what it prints, and
    whether it ran to its end. *)
Fixpoint convert_all (w : world) (md_files : list Path)
    : list message * bool :=
  match md_files with
  | [] => ([], true)
  | md_file :: rest =>
      if converts w md_file then
        let (msgs, ok) := convert_all w rest in
        (Processing (name md_file) :: msgs, ok)
      else ([Processing (name md_file)], false)
  end.

Definition no_files (md_files : list Path) : bool :=
  match md_files with [] => true | _ :: _ => false end.

(** The name derived from the input path: the stem of a file, the name of
    a directory. *)
Definition derived_name (fs : filesystem) (input_path : Path) : str :=
  if is_file fs input_path then stem input_path else name input_path.

(** A call that an exception leaves after it has printed [msgs]. *)
Definition raised (msgs : list message) : run :=
  {| printed := msgs; ending := Raised; written := [] |}.

(** A call that [sys.exit(1)] ends after the diagnostic [msg]. *)
Definition exited (msg : message) : run :=
  {| printed := [msg]; ending := SysExit 1; written := [] |}.

Definition generate_epub (w : world) (input_path output_dir : Path)
    (title : option str) : run :=
  match get_export_version w with
  | None => raised []
  | Some version =>
  if negb (path_exists (files w) input_path) then
    exited (PathNotFound input_path)
  else
    let md_files := get_md_files (files w) input_path true in
    if no_files md_files then exited (NoMarkdownFiles input_path)
    else
      let name := derived_name (files w) input_path in
      let found := Found (length md_files) input_path version in
      let (msgs, ok) := convert_all w md_files in
      if negb ok then raised (found :: msgs)
      else if negb (mkdir w output_dir) then raised (found :: msgs)
      else
        let output_file :=
          path_div output_dir (name ++ lit "_v" ++ version ++ lit ".epub") in
        match write_epub w output_file with
        | EpubWritten =>
            {| printed := found :: msgs
                          ++ [Generating output_file; Generated output_file];
               ending := Returned output_file;
               written := [output_file] |}
        | EpubWriteIgnored =>
            {| printed := found :: msgs
                          ++ [Generating output_file; Generated output_file];
               ending := Returned output_file;
               written := [] |}
        | EpubWriteRaised =>
            raised (found :: msgs ++ [Generating output_file])
        end
  end.

Definition generate_pdf (w : world) (input_path output_dir : Path)
    (title watermark : option str) : run :=
  match get_export_version w with
  | None => raised []
  | Some version =>
  if negb (path_exists (files w) input_path) then
    exited (PathNotFound input_path)
  else
    let md_files := get_md_files (files w) input_path true in
    if no_files md_files then exited (NoMarkdownFiles input_path)
    else
      let name := derived_name (files w) input_path in
      let found := Found (length md_files) input_path version in
      let (msgs, ok) := convert_all w md_files in
      if negb ok then raised (found :: msgs)
      else if negb (mkdir w output_dir) then raised (found :: msgs)
      else
        let output_file :=
          path_div output_dir (name ++ lit "_v" ++ version ++ lit ".pdf") in
        if write_pdf w output_file then
          {| printed := found :: msgs
                        ++ [Generating output_file; Generated output_file];
             ending := Returned output_file;
             written := [output_file] |}
        else raised (found :: msgs ++ [Generating output_file])
  end.

(** The name of the artifact: the name derived from the input path, then
    [_v], the version and the extension. *)
Definition artifact_name (fs : filesystem) (input_path : Path)
    (version ext : str) : str :=
  derived_name fs input_path ++ lit "_v" ++ version ++ ext.





(** ** Predicates on the lines of a document *)

(** The test of fix 2, on a line and the line that stands before it. *)
Definition calls_for_blank (prev : option str) (line : str) : bool :=
  match prev with
  | Some prev_line => is_list_item line && needs_blank prev_line
  | None => false
  end.

(** Outside fenced code, no line of [out] is a list item that directly
    follows a line calling for an empty line in between; [prev] is the line
    before [out], [in_code_block] the flag at its start. *)
Fixpoint lists_spaced (prev : option str) (in_code_block : bool)
    (out : list str) : bool :=
  match out with
  | [] => true
  | line :: rest =>
      if is_fence line then lists_spaced (Some line) (negb in_code_block) rest
      else (in_code_block || negb (calls_for_blank prev line))
           && lists_spaced (Some line) in_code_block rest
  end.

(** Two empty lines in a row. *)
Fixpoint double_blank (lines : list str) : bool :=
  match lines with
  | a :: (b :: _) as rest => (is_empty a && is_empty b) || double_blank rest
  | _ => false
  end.

(** No occurrence of the pattern starts anywhere in [s]. *)
Definition occurrence_free (s : str) : Prop :=
  forall a b, s = a ++ b -> ~ occurrence_at b.

(** ** Helpers to state properties of the generators *)

(** [f] applied to the last element of a list. *)
Fixpoint map_last (A : Type) (f : A -> A) (l : list A) : list A :=
  match l with
  | [] => []
  | [a] => [f a]
  | a :: rest => a :: map_last f rest
  end.

Definition has_slash (s : str) : bool :=
  existsb (fun c => Ascii.eqb c "/"%char) s.

(** The lines [Processing: ...] printed for the files [md_files]. *)
Definition processing (md_files : list Path) : list message :=
  map (fun md_file => Processing (name md_file)) md_files.

(** ** The chapters of the EPUB *)

From Stdlib Require DecimalNat DecimalString.

(** [s.replace(old, new)] for a non-empty [old]: the occurrences of [old]
    met from left to right are replaced, the scan resuming after each. *)
Equations? replace_from (old_head : ascii) (old_tail new s : str) : str
    by wf (length s) lt :=
  replace_from old_head old_tail new [] := [];
  replace_from old_head old_tail new (c :: t)
    with startswith (old_head :: old_tail) (c :: t) => {
    | true =>
        new ++ replace_from old_head old_tail new
                 (skipn (length (old_head :: old_tail)) (c :: t));
    | false => c :: replace_from old_head old_tail new t }.
Proof. pose proof (length_skipn (length old_tail) t). cbn in *. lia. Qed.

(** [s.replace(old, new)]; with an empty [old], [new] is put before every
    character and at the end. *)
Definition replace (old new s : str) : str :=
  match old with
  | [] => new ++ concat (map (fun c => c :: new) s)
  | old_head :: old_tail => replace_from old_head old_tail new s
  end.

(** The title taken from the first heading:
    [group.replace("&lt;", "<").replace("&gt;", ">")]. *)
Definition unescape_entities (group : str) : str :=
  replace ent_gt [chr_gt] (replace ent_lt [chr_lt] group).

(** [s'] is [s] with some of its [>] written as entities. *)
Inductive EntGt : str -> str -> Prop :=
| EntGt_nil : EntGt [] []
| EntGt_keep c s s' : EntGt s s' -> EntGt (c :: s) (c :: s')
| EntGt_gt s s' : EntGt s s' -> EntGt (chr_gt :: s) (ent_gt ++ s').

(** [str(n)] *)
Definition decimal (n : nat) : str :=
  list_ascii_of_string (DecimalString.NilEmpty.string_of_uint (Nat.to_uint n)).

(** The format [02d]: at least two digits, zeros in front. *)
Definition format_02d (n : nat) : str :=
  let digits := decimal n in
  if length digits <? 2 then "0"%char :: digits else digits.

(** The file name of chapter [i], counted from zero:
    [chapter_{i + 1:02d}.xhtml]. *)
Definition chapter_file_name (i : nat) : str :=
  lit "chapter_" ++ format_02d (i + 1) ++ lit ".xhtml".

(** The number a string of digits stands for. *)
Definition read_number (s : str) : option nat :=
  option_map Nat.of_uint (DecimalString.NilEmpty.uint_of_string (string_of_list_ascii s)).

Example chapter_file_names :
  map chapter_file_name [0; 8; 9; 98; 99]
  = [lit "chapter_01.xhtml"; lit "chapter_09.xhtml"; lit "chapter_10.xhtml";
     lit "chapter_99.xhtml"; lit "chapter_100.xhtml"].
Proof. vm_compute. reflexivity. Qed.

Example replace_examples :
  replace (lit "aa") (lit "b") (lit "aaaxaa") = lit "baxb"
  /\ replace [] (lit "-") (lit "abc") = lit "-a-b-c-"
  /\ unescape_entities (lit "Result&lt;T, E&gt; &amp;lt;") = lit "Result<T, E> &amp;lt;".
Proof. repeat split; vm_compute; reflexivity. Qed.

(** ** main *)







(** ** The loop and the stream of emitted lines *)

Lemma last_snoc (A : Type) (l : list A) (x d : A) : last (l ++ [x]) d = x.
Proof. apply last_last. Qed.

Lemma last_emitted_snoc prev out x :
  last_emitted prev (out ++ [x]) = Some x.
Proof.
  unfold last_emitted. destruct (out ++ [x]) eqn:E.
  - now destruct out.
  - rewrite <- E, last_snoc. reflexivity.
Qed.

Lemma last_emitted_app prev out out' :
  last_emitted prev (out ++ out') = last_emitted (last_emitted prev out) out'.
Proof.
  destruct out' as [|y out'] using rev_ind.
  - rewrite app_nil_r. reflexivity.
  - rewrite app_assoc, !last_emitted_snoc. reflexivity.
Qed.

Lemma last_emitted_cons prev x out :
  last_emitted prev (x :: out) = last_emitted (Some x) out.
Proof.
  change (x :: out) with ([x] ++ out). rewrite last_emitted_app.
  reflexivity.
Qed.

Lemma blank_before_cases prev line :
  blank_before prev line = [] \/ blank_before prev line = [[]].
Proof.
  unfold blank_before. destruct prev as [p|]; auto.
  destruct (is_list_item line && needs_blank p); auto.
Qed.

Lemma last_emitted_step prev line out :
  last_emitted prev (blank_before prev line ++ line :: out)
  = last_emitted (Some line) out.
Proof.
  rewrite last_emitted_app.
  change (line :: out) with ([line] ++ out).
  rewrite last_emitted_app.
  change [line] with ([] ++ [line]). rewrite last_emitted_snoc.
  reflexivity.
Qed.

Lemma count_fences_cons line lines :
  count_fences (line :: lines)
  = (if is_fence line then 1 else 0) + count_fences lines.
Proof. unfold count_fences. simpl. now destruct (is_fence line). Qed.

Lemma count_fences_app l1 l2 :
  count_fences (l1 ++ l2) = count_fences l1 + count_fences l2.
Proof. unfold count_fences. now rewrite filter_app, length_app. Qed.

Lemma flag_after_nil b : flag_after b [] = b.
Proof. unfold flag_after. simpl. now destruct b. Qed.

Lemma flag_after_cons b line lines :
  flag_after b (line :: lines)
  = flag_after (if is_fence line then negb b else b) lines.
Proof.
  unfold flag_after. rewrite count_fences_cons.
  destruct (is_fence line); simpl.
  - rewrite Nat.odd_succ, <- Nat.negb_odd.
    destruct b, (Nat.odd (count_fences lines)); reflexivity.
  - reflexivity.
Qed.

Lemma flag_after_even b lines :
  Nat.even (count_fences lines) = true -> flag_after b lines = b.
Proof.
  unfold flag_after. intros H. rewrite <- Nat.negb_even, H.
  now destruct b.
Qed.

Lemma nothing_emitted_app acc x out :
  nothing_emitted (acc ++ x :: out) = false.
Proof. now destruct acc. Qed.

(** The loop appends exactly the emitted lines, provided [i] is zero
    exactly when nothing was emitted before. *)
Lemma loop_emit lines : forall i b acc,
  (0 <? i) = negb (nothing_emitted acc) ->
  loop i lines b acc
  = (flag_after b lines, acc ++ emit (last_emitted None acc) b lines).
Proof.
  induction lines as [|line rest IH]; intros i b acc Hi.
  - simpl. now rewrite flag_after_nil, app_nil_r.
  - cbn [loop emit]. rewrite flag_after_cons.
    destruct (is_fence line) eqn:Hf.
    + rewrite IH by (now rewrite nothing_emitted_app).
      rewrite last_emitted_snoc, <- app_assoc. reflexivity.
    + destruct b; cbn [negb].
      * rewrite IH by (now rewrite nothing_emitted_app).
        rewrite last_emitted_snoc, <- app_assoc. reflexivity.
      * set (line' := escape_line line).
        assert (Hacc :
          (if (0 <? i) && is_list_item line' then
             if needs_blank (last acc []) then acc ++ [[]] else acc
           else acc) = acc ++ blank_before (last_emitted None acc) line').
        { rewrite Hi. destruct acc as [|a acc]; cbn [nothing_emitted negb andb].
          - reflexivity.
          - unfold last_emitted, blank_before.
            destruct (is_list_item line'); cbn [andb];
              [destruct (needs_blank _)|]; now rewrite ?app_nil_r. }
        rewrite Hacc. rewrite IH.
        -- rewrite last_emitted_snoc, <- !app_assoc. reflexivity.
        -- now rewrite nothing_emitted_app.
Qed.

Lemma process_lines_emit lines : process_lines lines = emit None false lines.
Proof. unfold process_lines. now rewrite loop_emit. Qed.

Lemma final_in_code_block_flag lines :
  final_in_code_block lines = Nat.odd (count_fences lines).
Proof. unfold final_in_code_block. now rewrite loop_emit. Qed.

Lemma emit_app l1 : forall prev b l2,
  emit prev b (l1 ++ l2)
  = emit prev b l1
    ++ emit (last_emitted prev (emit prev b l1)) (flag_after b l1) l2.
Proof.
  induction l1 as [|line l1 IH]; intros prev b l2.
  - simpl. now rewrite flag_after_nil.
  - cbn [app emit]. rewrite flag_after_cons.
    destruct (is_fence line).
    + rewrite IH, last_emitted_cons. reflexivity.
    + destruct b; cbn [negb].
      * rewrite IH, last_emitted_cons. reflexivity.
      * rewrite IH, last_emitted_step, <- app_assoc. reflexivity.
Qed.

Lemma emit_nonempty prev b lines : lines <> [] -> emit prev b lines <> [].
Proof.
  destruct lines as [|line rest]; [congruence|]. intros _. cbn [emit].
  destruct (is_fence line); [discriminate|].
  destruct (negb b); [|discriminate].
  destruct (blank_before prev (escape_line line)); discriminate.
Qed.

(** Inside a fenced region nothing is touched. *)
Lemma emit_in_code prev lines :
  Forall (fun l => is_fence l = false) lines ->
  emit prev true lines = lines.
Proof.
  revert prev; induction lines as [|l ls IH]; intros prev H; [reflexivity|].
  inversion H as [|? ? Hl Hls]; subst. cbn [emit]. rewrite Hl. cbn [negb].
  now rewrite IH.
Qed.

Lemma count_fences_none lines :
  Forall (fun l => is_fence l = false) lines -> count_fences lines = 0.
Proof.
  induction 1 as [|l ls Hl _ IH]; [reflexivity|].
  rewrite count_fences_cons, Hl, IH. reflexivity.
Qed.

(** The last line that toggles the flag, when there is one. *)
Lemma last_fence_split lines :
  count_fences lines <> 0 ->
  exists pre f post,
    lines = pre ++ f :: post /\ is_fence f = true
    /\ Forall (fun l => is_fence l = false) post.
Proof.
  induction lines as [|l ls IH]; [intros H; now elim H|].
  intros H. destruct (Nat.eq_dec (count_fences ls) 0) as [Hz|Hnz].
  - destruct (is_fence l) eqn:Hl.
    + exists [], l, ls. repeat split; auto.
      unfold count_fences in Hz. apply length_zero_iff_nil in Hz.
      apply Forall_forall. intros x Hx.
      destruct (is_fence x) eqn:Hfx; [|reflexivity].
      assert (Hin : In x (filter is_fence ls)) by (apply filter_In; auto).
      rewrite Hz in Hin. destruct Hin.
    + exfalso. apply H. rewrite count_fences_cons, Hl, Hz. reflexivity.
  - destruct (IH Hnz) as (pre & f & post & -> & Hf & Hpost).
    exists (l :: pre), f, post. repeat split; auto.
Qed.


(** ** The regular expressions: unfolding and characterisation *)

Lemma re_split_eq s :
  re_split s = match search match_span s with
               | Some (before, m, rest) => before :: m :: re_split rest
               | None => [s]
               end.
Proof.
  funelim (re_split s);
    match goal with E : search match_span _ = _ |- _ => now rewrite E end.
Qed.

Lemma re_sub_eq s :
  re_sub s = match search match_generic s with
             | Some (before, g, rest) =>
                 before ++ ent_lt ++ g ++ ent_gt ++ re_sub rest
             | None => s
             end.
Proof.
  funelim (re_sub s);
    match goal with E : search match_generic _ = _ |- _ => now rewrite E end.
Qed.

Lemma free_nil match_at tail : free match_at [] tail.
Proof.
  intros b1 b2 E Hb2. symmetry in E. apply app_eq_nil in E.
  destruct E; contradiction.
Qed.

Lemma free_cons match_at c before tail :
  match_at (c :: before ++ tail) = None ->
  free match_at before tail ->
  free match_at (c :: before) tail.
Proof.
  intros Hc Hfree b1 b2 E Hb2. destruct b1 as [|x b1]; cbn in E.
  - subst b2. exact Hc.
  - injection E as _ E. now apply (Hfree b1 b2).
Qed.

Lemma free_inv match_at c before tail :
  free match_at (c :: before) tail ->
  match_at (c :: before ++ tail) = None /\ free match_at before tail.
Proof.
  intros H. split.
  - apply (H [] (c :: before)); [reflexivity|discriminate].
  - intros b1 b2 E Hb2. apply (H (c :: b1) b2); [now rewrite E|exact Hb2].
Qed.

Lemma search_some match_at s before m rest :
  search match_at s = Some (before, m, rest) ->
  exists tail,
    s = before ++ tail /\ match_at tail = Some (m, rest)
    /\ free match_at before tail.
Proof.
  revert before; induction s as [|c t IH]; intros before; [discriminate|].
  cbn [search]. destruct (match_at (c :: t)) as [[m' r']|] eqn:E.
  - intros H; injection H as <- <- <-. exists (c :: t).
    repeat split; auto using free_nil.
  - destruct (search match_at t) as [[[b' m'] r']|]; [|discriminate].
    intros H; injection H as <- <- <-.
    destruct (IH _ eq_refl) as (tail & -> & Hm & Hfree).
    exists tail. repeat split; auto. now apply free_cons.
Qed.

Lemma search_none match_at s :
  search match_at s = None -> free match_at s [].
Proof.
  induction s as [|c t IH]; intros H; [apply free_nil|].
  cbn [search] in H. destruct (match_at (c :: t)) as [[m' r']|] eqn:E;
    [discriminate|].
  destruct (search match_at t) as [[[b' m'] r']|]; [discriminate|].
  apply free_cons; [now rewrite app_nil_r|now apply IH].
Qed.

Lemma search_found match_at before tail m rest :
  free match_at before tail ->
  match_at tail = Some (m, rest) ->
  tail <> [] ->
  search match_at (before ++ tail) = Some (before, m, rest).
Proof.
  intros Hfree Hm Htail. induction before as [|c before IH]; cbn [app].
  - destruct tail as [|c t]; [contradiction|]. cbn [search]. now rewrite Hm.
  - apply free_inv in Hfree. destruct Hfree as [Hc Hfree].
    cbn [search]. rewrite Hc, (IH Hfree). reflexivity.
Qed.

Lemma search_missing match_at s :
  free match_at s [] -> search match_at s = None.
Proof.
  induction s as [|c t IH]; intros H; [reflexivity|].
  apply free_inv in H. destruct H as [Hc H]. rewrite app_nil_r in Hc.
  cbn [search]. now rewrite Hc, (IH H).
Qed.

(** *** Character facts *)

Lemma eqb_bt_not_bt c : Ascii.eqb c chr_bt = negb (not_bt c).
Proof. unfold not_bt. now rewrite negb_involutive. Qed.

Lemma take_drop_while p (s : str) : take_while p s ++ drop_while p s = s.
Proof.
  induction s as [|c t IH]; [reflexivity|]. simpl. destruct (p c).
  - simpl. now rewrite IH.
  - reflexivity.
Qed.

Lemma take_while_all p (s : str) : forallb p (take_while p s) = true.
Proof.
  induction s as [|c t IH]; [reflexivity|]. simpl.
  destruct (p c) eqn:E; [|reflexivity]. simpl. now rewrite E.
Qed.

Lemma drop_while_head p (s : str) c t :
  drop_while p s = c :: t -> p c = false.
Proof.
  induction s as [|a s IH]; simpl; [discriminate|].
  destruct (p a) eqn:E; [exact IH|]. intros H; injection H as <- _. exact E.
Qed.

Lemma take_while_app_stop p (body : str) c t :
  forallb p body = true -> p c = false ->
  take_while p (body ++ c :: t) = body
  /\ drop_while p (body ++ c :: t) = c :: t.
Proof.
  intros Hb Hc. induction body as [|a body IH]; simpl.
  - now rewrite Hc.
  - simpl in Hb. apply andb_true_iff in Hb. destruct Hb as [Ha Hb].
    rewrite Ha. destruct (IH Hb) as [-> ->]. auto.
Qed.

(** *** The span pattern *)

Lemma match_span_some s m rest :
  match_span s = Some (m, rest) -> s = m ++ rest /\ is_span m.
Proof.
  unfold match_span. destruct s as [|c t]; [discriminate|].
  destruct (Ascii.eqb_spec c chr_bt) as [->|]; [|discriminate].
  destruct (take_while not_bt t) as [|d body] eqn:Ht; [discriminate|].
  destruct (drop_while not_bt t) as [|q rest'] eqn:Hd; [discriminate|].
  intros H; injection H as <- <-.
  pose proof (take_drop_while not_bt t) as E. rewrite Ht, Hd in E.
  pose proof (drop_while_head _ _ Hd) as Hq.
  unfold not_bt in Hq. apply negb_false_iff in Hq.
  apply Ascii.eqb_eq in Hq. subst q. split.
  - rewrite <- E. cbn [app]. now rewrite <- !app_assoc.
  - apply (is_span_intro (body := d :: body)); [discriminate|].
    rewrite <- Ht. apply take_while_all.
Qed.

Lemma match_span_of_span m rest :
  is_span m -> match_span (m ++ rest) = Some (m, rest).
Proof.
  intros [body Hne Hbody]. cbn [app match_span].
  rewrite Ascii.eqb_refl, <- app_assoc. cbn [app].
  destruct (@take_while_app_stop not_bt body chr_bt rest Hbody eq_refl)
    as [-> ->].
  destruct body; [contradiction|reflexivity].
Qed.

Lemma span_kept m : is_span m -> escape_part m = m.
Proof.
  intros [body _ _]. unfold escape_part, endswith.
  cbn [startswith]. rewrite Ascii.eqb_refl.
  change (chr_bt :: body ++ [chr_bt]) with ((chr_bt :: body) ++ [chr_bt]).
  rewrite rev_app_distr. cbn. reflexivity.
Qed.

Lemma drop_while_nil_iff (s : str) :
  drop_while not_bt s = [] <-> has_bt s = false.
Proof.
  induction s as [|c t IH]; simpl; [tauto|].
  rewrite eqb_bt_not_bt. destruct (not_bt c); simpl; [exact IH|].
  split; discriminate.
Qed.

Lemma match_span_none c u :
  match_span (c :: u) = None <->
  Ascii.eqb c chr_bt = false \/ starts_text u = false \/ has_bt u = false.
Proof.
  unfold match_span. destruct (Ascii.eqb c chr_bt); [|tauto].
  rewrite <- drop_while_nil_iff. destruct u as [|d u]; cbn; [tauto|].
  destruct (not_bt d) eqn:Hd.
  - destruct (drop_while not_bt u); split; try tauto; try discriminate.
    intros [H|[H|H]]; discriminate.
  - tauto.
Qed.

(** *** The generic pattern *)

Lemma match_generic_some s g rest :
  match_generic s = Some (g, rest) ->
  exists u inner,
    g = u :: inner /\ is_upper u = true /\ forallb not_gt inner = true
    /\ s = chr_lt :: g ++ chr_gt :: rest.
Proof.
  unfold match_generic. destruct s as [|c [|u t]]; try discriminate.
  destruct (Ascii.eqb_spec c chr_lt) as [->|]; [|discriminate]. cbn [andb].
  destruct (is_upper u) eqn:Hu; [|discriminate].
  destruct (drop_while not_gt t) as [|q rest'] eqn:Hd; [discriminate|].
  intros H; injection H as <- <-.
  exists u, (take_while not_gt t). repeat split; auto using take_while_all.
  pose proof (take_drop_while not_gt t) as E. rewrite Hd in E.
  pose proof (drop_while_head _ _ Hd) as Hq.
  unfold not_gt in Hq. apply negb_false_iff in Hq.
  apply Ascii.eqb_eq in Hq. subst q. cbn [app]. now rewrite E.
Qed.

Lemma drop_while_gt_nil_iff (s : str) :
  drop_while not_gt s = [] <-> has_gt s = false.
Proof.
  induction s as [|c t IH]; simpl; [tauto|].
  unfold not_gt at 1. destruct (Ascii.eqb c chr_gt); simpl; [|exact IH].
  split; discriminate.
Qed.

Lemma match_generic_none c s :
  match_generic (c :: s) = None <->
  Ascii.eqb c chr_lt = false
  \/ match s with
     | u :: t => is_upper u = false \/ has_gt t = false
     | [] => True
     end.
Proof.
  unfold match_generic. destruct s as [|u t]; [tauto|].
  destruct (Ascii.eqb c chr_lt); cbn [andb]; [|tauto].
  destruct (is_upper u); [|tauto].
  rewrite <- drop_while_gt_nil_iff.
  destruct (drop_while not_gt t); split; try tauto; try discriminate.
  intros [H|[H|H]]; discriminate.
Qed.

(** ** What escaping does to a string *)

Lemma Ent_refl s : Ent s s.
Proof. induction s; constructor; auto. Qed.

Lemma Ent_app s1 s1' s2 s2' :
  Ent s1 s1' -> Ent s2 s2' -> Ent (s1 ++ s2) (s1' ++ s2').
Proof.
  intros H1 H2. induction H1; cbn [app]; rewrite <- ?app_assoc;
    try constructor; auto.
Qed.

Lemma search_generic_some s before g rest :
  search match_generic s = Some (before, g, rest) ->
  exists u inner,
    g = u :: inner /\ is_upper u = true /\ forallb not_gt inner = true
    /\ s = before ++ chr_lt :: g ++ chr_gt :: rest
    /\ free match_generic before (chr_lt :: g ++ chr_gt :: rest).
Proof.
  intros H. apply search_some in H. destruct H as (tail & -> & Hm & Hfree).
  destruct (match_generic_some _ Hm) as (u & inner & -> & Hu & Hin & ->).
  exists u, inner. repeat split; auto.
Qed.

Lemma re_sub_Ent s : Ent s (re_sub s).
Proof.
  funelim (re_sub s).
  - match goal with E : search match_generic _ = Some _ |- _ =>
      pose proof (search_generic_some _ E) as X
    end.
    destruct X as (u & inner & -> & _ & _ & -> & _).
    apply Ent_app; [apply Ent_refl|]. apply Ent_lt.
    apply Ent_app; [apply Ent_refl|]. apply Ent_gt. assumption.
  - apply Ent_refl.
Qed.

Lemma re_split_concat s : concat (re_split s) = s.
Proof.
  funelim (re_split s).
  - match goal with E : search match_span _ = Some _ |- _ =>
      pose proof (search_some _ _ E) as X
    end.
    destruct X as (tail & Hs & Hm & _).
    apply match_span_some in Hm. destruct Hm as [Ht _].
    cbn [concat]. rewrite Hs, Ht. now f_equal; f_equal.
  - cbn. apply app_nil_r.
Qed.

Lemma escape_part_cases part :
  escape_part part = part \/ escape_part part = re_sub part.
Proof.
  unfold escape_part.
  destruct (startswith [chr_bt] part && endswith [chr_bt] part); auto.
Qed.

Lemma escape_part_Ent part : Ent part (escape_part part).
Proof.
  destruct (escape_part_cases part) as [-> | ->];
    auto using Ent_refl, re_sub_Ent.
Qed.

Lemma concat_Ent parts :
  Ent (concat parts) (concat (map escape_part parts)).
Proof.
  induction parts as [|p parts IH]; cbn; [constructor|].
  apply Ent_app; auto using escape_part_Ent.
Qed.

Lemma escape_line_Ent line : Ent line (escape_line line).
Proof.
  unfold escape_line. rewrite <- (re_split_concat line) at 1.
  apply concat_Ent.
Qed.

Lemma rewritten_Ent line line' : rewritten line line' -> Ent line line'.
Proof. intros []; auto using Ent_refl, escape_line_Ent. Qed.

(** Escaping neither adds nor removes a line break or a backtick. *)
Lemma Ent_has_nl s s' : Ent s s' -> has_nl s' = has_nl s.
Proof.
  induction 1 as [|c s s' _ IH|s s' _ IH|s s' _ IH]; unfold has_nl in *;
    cbn; rewrite ?IH; reflexivity.
Qed.

Lemma Ent_has_bt s s' : Ent s s' -> has_bt s' = has_bt s.
Proof.
  induction 1 as [|c s s' _ IH|s s' _ IH|s s' _ IH]; unfold has_bt in *;
    cbn; rewrite ?IH; reflexivity.
Qed.

Lemma Ent_startswith p : forall s s',
  plain p = true -> Ent s s' -> startswith p s' = startswith p s.
Proof.
  induction p as [|a p IH]; intros s s' Hp HE; [reflexivity|].
  cbn in Hp. apply andb_true_iff in Hp. destruct Hp as [Ha Hp].
  apply andb_true_iff in Ha. destruct Ha as [Ha Hamp].
  apply andb_true_iff in Ha. destruct Ha as [Hlt Hgt].
  apply negb_true_iff in Hlt, Hgt, Hamp.
  inversion HE; subst; cbn [startswith ent_lt ent_gt lit
                              list_ascii_of_string app].
  - reflexivity.
  - now rewrite (IH s0 s'0).
  - now rewrite Hlt, Hamp.
  - now rewrite Hgt, Hamp.
Qed.

(** *** [strip] and the fence test *)

Lemma startswith_app_spaces p : forall a ws,
  forallb (fun c => negb (is_space c)) p = true ->
  forallb is_space ws = true ->
  startswith p (a ++ ws) = startswith p a.
Proof.
  induction p as [|c p IH]; intros a ws Hp Hws; [reflexivity|].
  cbn in Hp. apply andb_true_iff in Hp. destruct Hp as [Hc Hp].
  destruct a as [|x a]; cbn [app startswith].
  - destruct ws as [|w ws]; [reflexivity|]. cbn [startswith].
    cbn in Hws. apply andb_true_iff in Hws. destruct Hws as [Hw _].
    destruct (Ascii.eqb_spec c w) as [->|]; [|reflexivity].
    rewrite Hw in Hc. discriminate.
  - now rewrite IH.
Qed.

Lemma rstrip_decomp (t : str) :
  exists ws, t = rev (lstrip (rev t)) ++ ws /\ forallb is_space ws = true.
Proof.
  exists (rev (take_while is_space (rev t))). split.
  - rewrite <- rev_app_distr. unfold lstrip.
    rewrite take_drop_while. now rewrite rev_involutive.
  - rewrite forallb_forall. intros x Hx. apply in_rev in Hx.
    pose proof (take_while_all is_space (rev t)) as H.
    rewrite forallb_forall in H. now apply H.
Qed.

Lemma startswith_strip p s :
  forallb (fun c => negb (is_space c)) p = true ->
  startswith p (strip s) = startswith p (lstrip s).
Proof.
  intros Hp. unfold strip.
  destruct (rstrip_decomp (lstrip s)) as (ws & E & Hws).
  rewrite E at 2. now rewrite startswith_app_spaces.
Qed.

Lemma is_fence_lstrip s : is_fence s = startswith fence (lstrip s).
Proof. unfold is_fence. now apply startswith_strip. Qed.

Lemma Ent_lstrip_fence s s' :
  Ent s s' -> startswith fence (lstrip s') = startswith fence (lstrip s).
Proof.
  induction 1 as [|c s s' HE IH|s s' HE IH|s s' HE IH].
  - reflexivity.
  - unfold lstrip in *. cbn [drop_while]. destruct (is_space c); [exact IH|].
    apply Ent_startswith; [reflexivity|now constructor].
  - reflexivity.
  - reflexivity.
Qed.

Lemma Ent_is_fence s s' : Ent s s' -> is_fence s' = is_fence s.
Proof. intros H. rewrite !is_fence_lstrip. now apply Ent_lstrip_fence. Qed.

Lemma escape_line_is_fence line :
  is_fence (escape_line line) = is_fence line.
Proof. apply Ent_is_fence, escape_line_Ent. Qed.

Lemma has_bt_false_is_fence s : has_bt s = false -> is_fence s = false.
Proof.
  intros H. rewrite is_fence_lstrip. unfold lstrip.
  induction s as [|c t IH]; [reflexivity|].
  cbn in H. apply orb_false_iff in H. destruct H as [Hc Ht].
  cbn [drop_while]. destruct (is_space c); [now apply IH|].
  unfold fence. cbn [lit list_ascii_of_string startswith].
  destruct (Ascii.eqb_spec "`"%char c) as [E|]; [|reflexivity].
  subst c. discriminate Hc.
Qed.

(** ** Splitting and joining lines *)

Lemma split_lines_nonempty s : split_lines s <> [].
Proof.
  destruct s as [|c t]; cbn; [discriminate|].
  destruct (Ascii.eqb c chr_nl); [discriminate|].
  destruct (split_lines t); discriminate.
Qed.

Lemma split_lines_no_nl s :
  Forall (fun l => has_nl l = false) (split_lines s).
Proof.
  induction s as [|c t IH]; cbn [split_lines]; [repeat constructor|].
  destruct (Ascii.eqb c chr_nl) eqn:E; [constructor; auto|].
  destruct (split_lines t) as [|l ls].
  - constructor; [|constructor]. unfold has_nl. cbn. now rewrite E.
  - inversion IH as [|? ? Hl Hls]; subst. constructor; [|exact Hls].
    unfold has_nl in *. cbn. now rewrite E.
Qed.

Lemma split_lines_line l :
  has_nl l = false -> split_lines l = [l].
Proof.
  induction l as [|c t IH]; [reflexivity|]. unfold has_nl. cbn.
  intros H. apply orb_false_iff in H. destruct H as [Hc Ht].
  rewrite Hc, (IH Ht). reflexivity.
Qed.

Lemma split_lines_app l t :
  has_nl l = false ->
  split_lines (l ++ chr_nl :: t) = l :: split_lines t.
Proof.
  induction l as [|c l IH]; [reflexivity|]. unfold has_nl. cbn.
  intros H. apply orb_false_iff in H. destruct H as [Hc Hl].
  rewrite Hc, (IH Hl). reflexivity.
Qed.

Lemma split_join ls :
  ls <> [] -> Forall (fun l => has_nl l = false) ls ->
  split_lines (join_lines ls) = ls.
Proof.
  induction ls as [|l ls IH]; [congruence|]. intros _ H.
  inversion H as [|? ? Hl Hls]; subst. destruct ls as [|l2 ls].
  - cbn. now apply split_lines_line.
  - cbn [join_lines]. rewrite split_lines_app by assumption.
    f_equal. apply IH; [discriminate|assumption].
Qed.

Lemma join_split s : join_lines (split_lines s) = s.
Proof.
  induction s as [|c t IH]; [reflexivity|]. cbn [split_lines].
  destruct (Ascii.eqb_spec c chr_nl) as [->|].
  - pose proof (split_lines_nonempty t) as Hne.
    destruct (split_lines t) as [|l ls] eqn:E; [contradiction|].
    cbn [join_lines app]. cbn [join_lines] in IH. now rewrite IH.
  - pose proof (split_lines_nonempty t) as Hne.
    destruct (split_lines t) as [|l ls] eqn:E; [contradiction|].
    destruct ls; cbn [join_lines app] in *; now rewrite IH.
Qed.

Lemma escape_line_no_nl line :
  has_nl line = false -> has_nl (escape_line line) = false.
Proof. intros H. now rewrite (Ent_has_nl (escape_line_Ent line)). Qed.

Lemma emit_no_nl lines : forall prev b,
  Forall (fun l => has_nl l = false) lines ->
  Forall (fun l => has_nl l = false) (emit prev b lines).
Proof.
  induction lines as [|line rest IH]; intros prev b H; [constructor|].
  inversion H as [|? ? Hl Hrest]; subst. cbn [emit].
  destruct (is_fence line); [constructor; auto|].
  destruct (negb b); [|constructor; auto].
  apply Forall_app. split.
  - destruct (blank_before_cases prev (escape_line line)) as [-> | ->];
      repeat constructor.
  - constructor; auto using escape_line_no_nl.
Qed.

(** The lines of the output are the lines the loop has emitted. *)
Lemma output_lines s :
  split_lines (preprocess_markdown s) = process_lines (split_lines s).
Proof.
  unfold preprocess_markdown. apply split_join.
  - rewrite process_lines_emit.
    apply emit_nonempty, split_lines_nonempty.
  - rewrite process_lines_emit. apply emit_no_nl, split_lines_no_nl.
Qed.

(** ** The output follows the input line by line *)

Lemma Woven_length R lines out :
  Woven R lines out -> length lines <= length out.
Proof. induction 1; cbn; lia. Qed.

Lemma Woven_impl (R R' : str -> str -> Prop) lines out :
  (forall l l', R l l' -> R' l l') ->
  Woven R lines out -> Woven R' lines out.
Proof.
  intros HR.
  induction 1; [apply Woven_nil|apply Woven_line|apply Woven_blank]; auto.
Qed.

Lemma Woven_blank_before R prev l l' ls out :
  R l l' -> Woven R ls out ->
  Woven R (l :: ls) (blank_before prev l' ++ l' :: out).
Proof.
  intros Hl Hw.
  destruct (blank_before_cases prev l') as [-> | ->]; cbn [app];
    [apply Woven_line|apply Woven_blank]; auto.
Qed.

Lemma emit_woven lines : forall prev b,
  Woven rewritten lines (emit prev b lines).
Proof.
  induction lines as [|line rest IH]; intros prev b; [constructor|].
  cbn [emit]. destruct (is_fence line).
  - constructor; [constructor|apply IH].
  - destruct (negb b).
    + apply Woven_blank_before; [constructor|apply IH].
    + constructor; [constructor|apply IH].
Qed.

(** ** The replacement, as the code computes it and as it is worded *)

Lemma forallb_not_gt inner : forallb not_gt inner = true -> has_gt inner = false.
Proof.
  induction inner as [|c t IH]; [reflexivity|]. unfold has_gt. cbn.
  intros H. apply andb_true_iff in H. destruct H as [Hc Ht].
  unfold not_gt in Hc. apply negb_true_iff in Hc. rewrite Hc. now apply IH.
Qed.

Lemma has_gt_app a b : has_gt (a ++ b) = has_gt a || has_gt b.
Proof. unfold has_gt. apply existsb_app. Qed.

Lemma no_match_no_occurrence s :
  match_generic s = None -> ~ occurrence_at s.
Proof.
  intros Hm (u & inner & tail & -> & Hu).
  apply match_generic_none in Hm. destruct Hm as [H|[H|H]].
  - discriminate.
  - congruence.
  - rewrite has_gt_app in H. cbn in H. rewrite orb_true_r in H.
    discriminate.
Qed.

Lemma Escaped_free before tail out :
  free match_generic before tail ->
  Escaped tail out -> Escaped (before ++ tail) (before ++ out).
Proof.
  intros Hfree Htail. induction before as [|c before IH]; [exact Htail|].
  apply free_inv in Hfree. destruct Hfree as [Hc Hfree].
  cbn [app]. apply Escaped_skip; auto using no_match_no_occurrence.
Qed.

Lemma re_sub_Escaped s : Escaped s (re_sub s).
Proof.
  funelim (re_sub s).
  - match goal with E : search match_generic _ = Some _ |- _ =>
      pose proof (search_generic_some _ E) as X
    end.
    destruct X as (u & inner & Hg & Hu & Hin & Hs & Hfree).
    rewrite Hs. apply Escaped_free; [exact Hfree|]. rewrite Hg.
    cbn [app]. apply Escaped_hit; auto using forallb_not_gt.
  - match goal with E : search match_generic _ = None |- _ =>
      pose proof (@search_none _ _ E) as X
    end.
    rewrite <- (app_nil_r s) at 1. rewrite <- (app_nil_r s) at 2.
    apply Escaped_free; [exact X|constructor].
Qed.

Lemma first_gt_unique a a' b b' :
  has_gt a = false -> has_gt a' = false ->
  a ++ chr_gt :: b = a' ++ chr_gt :: b' -> a = a' /\ b = b'.
Proof.
  revert a'; induction a as [|c a IH]; intros a' Ha Ha' E.
  - destruct a' as [|c' a']; cbn in E.
    + injection E as E. auto.
    + injection E as E _. subst c'. discriminate Ha'.
  - destruct a' as [|c' a']; cbn in E.
    + injection E as E _. subst c. discriminate Ha.
    + injection E as -> E. unfold has_gt in Ha, Ha'. cbn in Ha, Ha'.
      apply orb_false_iff in Ha, Ha'.
      destruct (IH a' (proj2 Ha) (proj2 Ha') E) as [-> ->]. auto.
Qed.

(** The wording determines the result: it is the one the code computes. *)
Lemma Escaped_re_sub s out : Escaped s out -> out = re_sub s.
Proof.
  intros H. pose proof (re_sub_Escaped s) as H'. revert H'.
  generalize (re_sub s) as out'. induction H as
    [|u inner rest rest' Hu Hin _ IH|c rest rest' Hno _ IH]; intros out' H'.
  - now inversion H'.
  - inversion H'; subst.
    + match goal with
      | E : ?i ++ chr_gt :: ?r = inner ++ chr_gt :: rest,
        Hi : has_gt ?i = false, Hr : Escaped ?r _ |- _ =>
          destruct (@first_gt_unique _ _ _ _ Hi Hin E) as [-> ->];
          now rewrite (IH _ Hr)
      end.
    + exfalso.
      match goal with Hn : ~ occurrence_at _ |- _ => apply Hn end.
      exists u, inner, rest. auto.
  - inversion H'; subst.
    + exfalso. apply Hno. eexists _, _, _. split; [reflexivity|assumption].
    + match goal with Hr : Escaped rest _ |- _ => now rewrite (IH _ Hr) end.
Qed.

(** *** Lines without a backtick *)

Lemma no_bt_no_span s : has_bt s = false -> search match_span s = None.
Proof.
  induction s as [|c t IH]; [reflexivity|]. unfold has_bt. cbn [existsb].
  intros H. apply orb_false_iff in H. destruct H as [Hc Ht].
  cbn [search]. unfold match_span at 1. rewrite Hc.
  now rewrite (IH Ht).
Qed.

Lemma escape_line_no_bt line :
  has_bt line = false -> escape_line line = re_sub line.
Proof.
  intros H. unfold escape_line. rewrite re_split_eq, (no_bt_no_span _ H).
  cbn [map concat]. rewrite app_nil_r. unfold escape_part.
  destruct line as [|c t]; [reflexivity|].
  unfold has_bt in H. cbn in H. apply orb_false_iff in H.
  destruct H as [Hc _]. cbn [startswith].
  rewrite Ascii.eqb_sym in Hc. unfold chr_bt in *. now rewrite Hc.
Qed.

Lemma split_lines_no_bt s :
  has_bt s = false -> Forall (fun l => has_bt l = false) (split_lines s).
Proof.
  induction s as [|c t IH]; cbn [split_lines]; [repeat constructor|].
  unfold has_bt at 1. cbn [existsb]. intros H.
  apply orb_false_iff in H. destruct H as [Hc Ht]. specialize (IH Ht).
  destruct (Ascii.eqb c chr_nl); [constructor; auto|].
  destruct (split_lines t) as [|l ls].
  - constructor; [|constructor]. unfold has_bt. cbn. now rewrite Hc.
  - inversion IH as [|? ? Hl Hls]; subst. constructor; [|exact Hls].
    unfold has_bt in *. cbn. now rewrite Hc.
Qed.

Lemma emit_woven_no_bt lines : forall prev,
  Forall (fun l => has_bt l = false) lines ->
  Woven Escaped lines (emit prev false lines).
Proof.
  induction lines as [|line rest IH]; intros prev H; [constructor|].
  inversion H as [|? ? Hl Hrest]; subst. cbn [emit].
  rewrite (has_bt_false_is_fence _ Hl). cbn [negb].
  apply Woven_blank_before; [|now apply IH].
  rewrite (escape_line_no_bt _ Hl). apply re_sub_Escaped.
Qed.

(** *** Code spans *)

Lemma rewritten_spans_kept line line' :
  rewritten line line' -> spans_kept line line'.
Proof.
  intros Hr before part after Hsplit Hspan. destruct Hr.
  - exists (concat before), (concat after). repeat split; auto using Ent_refl.
    rewrite <- (re_split_concat line) at 1.
    rewrite Hsplit, concat_app. reflexivity.
  - exists (concat (map escape_part before)),
           (concat (map escape_part after)).
    repeat split; auto using concat_Ent.
    unfold escape_line. rewrite Hsplit, map_app, concat_app.
    cbn [map concat]. now rewrite (span_kept Hspan).
Qed.

Lemma is_infix_intro w a b : is_infix w (a ++ w ++ b) = true.
Proof.
  assert (Hsw : forall w b, startswith w (w ++ b) = true).
  { clear. induction w as [|c w IH]; intros b; [reflexivity|].
    cbn. now rewrite Ascii.eqb_refl, IH. }
  induction a as [|c a IH]; cbn [app].
  - destruct (w ++ b) eqn:E; cbn [is_infix]; rewrite <- ?E, Hsw; reflexivity.
  - cbn [is_infix]. rewrite IH. apply orb_true_r.
Qed.

(** ** A second pass *)

Lemma starts_text_app b t :
  starts_text (b ++ t) = match b with [] => starts_text t | _ => starts_text b end.
Proof. now destruct b. Qed.

Lemma has_bt_app a b : has_bt (a ++ b) = has_bt a || has_bt b.
Proof. unfold has_bt. apply existsb_app. Qed.

Lemma span_none_transfer c b b' t t' :
  Ent b b' -> tails_alike t t' ->
  match_span (c :: b ++ t) = None -> match_span (c :: b' ++ t') = None.
Proof.
  intros HE [Hst Hbt]. rewrite !match_span_none.
  rewrite !starts_text_app, !has_bt_app, (Ent_has_bt HE), Hbt.
  intros [H|[H|H]]; auto. right; left.
  destruct HE; cbn in *; try congruence; discriminate.
Qed.

Lemma free_skip c before tail :
  Ascii.eqb c chr_bt = false ->
  free match_span before tail -> free match_span (c :: before) tail.
Proof.
  intros Hc. apply free_cons. apply match_span_none. auto.
Qed.

(** Escaping creates no code span. *)
Lemma Ent_free_span b b' t t' :
  Ent b b' -> tails_alike t t' ->
  free match_span b t -> free match_span b' t'.
Proof.
  intros HE Ht. induction HE as [|c s s' HE IH|s s' HE IH|s s' HE IH];
    intros Hfree.
  - apply free_nil.
  - apply free_inv in Hfree. destruct Hfree as [Hc Hfree].
    apply free_cons; [now apply (span_none_transfer c HE Ht)|auto].
  - apply free_inv in Hfree. destruct Hfree as [_ Hfree].
    unfold ent_lt. cbn [lit list_ascii_of_string app].
    repeat (apply free_skip; [reflexivity|]). auto.
  - apply free_inv in Hfree. destruct Hfree as [_ Hfree].
    unfold ent_gt. cbn [lit list_ascii_of_string app].
    repeat (apply free_skip; [reflexivity|]). auto.
Qed.

Lemma span_tails_alike m r r' :
  is_span m -> tails_alike (m ++ r) (m ++ r').
Proof. intros [body _ _]. split; reflexivity. Qed.

(** The split of an escaped line is the escaped split of the line. *)
Lemma re_split_escape_line line :
  re_split (escape_line line) = map escape_part (re_split line).
Proof.
  unfold escape_line. funelim (re_split line).
  - match goal with E : search match_span _ = Some _ |- _ =>
      pose proof (@search_some _ _ _ _ _ E) as X
    end.
    destruct X as (tail & _ & Hm & Hfree).
    apply match_span_some in Hm. destruct Hm as [-> Hspan].
    cbn [map concat]. rewrite (span_kept Hspan), re_split_eq.
    rewrite (@search_found match_span (escape_part before)
               (m ++ concat (map escape_part (re_split rest))) m
               (concat (map escape_part (re_split rest)))).
    + f_equal. f_equal. assumption.
    + apply (Ent_free_span (escape_part_Ent before)
               (span_tails_alike rest _ Hspan) Hfree).
    + now apply match_span_of_span.
    + destruct Hspan. discriminate.
  - match goal with E : search match_span _ = None |- _ =>
      pose proof (@search_none _ _ E) as X
    end.
    cbn [map concat]. rewrite app_nil_r, re_split_eq.
    rewrite search_missing; [reflexivity|].
    apply (Ent_free_span (escape_part_Ent s) (t:=[]) (t':=[]));
      [split; reflexivity|exact X].
Qed.

(** *** The replacement on a part without nested occurrences *)

Lemma free_app match_at a b t :
  free match_at a (b ++ t) -> free match_at b t -> free match_at (a ++ b) t.
Proof.
  intros Ha Hb. induction a as [|c a IH]; [exact Hb|].
  apply free_inv in Ha. destruct Ha as [Hc Ha]. cbn [app].
  apply free_cons; [now rewrite <- app_assoc|auto].
Qed.

Lemma no_lt_free a t : has_lt a = false -> free match_generic a t.
Proof.
  induction a as [|c a IH]; intros H; [apply free_nil|].
  unfold has_lt in H. cbn in H. apply orb_false_iff in H.
  destruct H as [Hc Ha]. apply free_cons; [|now apply IH].
  apply match_generic_none. auto.
Qed.

(** What stands before a replaced occurrence starts no occurrence after
    the replacement either. *)
Lemma free_before_entity before g rest t' :
  free match_generic before (chr_lt :: g ++ chr_gt :: rest) ->
  free match_generic before ("&"%char :: t').
Proof.
  induction before as [|c before IH]; intros H; [apply free_nil|].
  apply free_inv in H. destruct H as [Hc H].
  apply free_cons; [|now apply IH].
  apply match_generic_none in Hc. apply match_generic_none.
  destruct Hc as [Hc|Hc]; [now left|]. right.
  destruct before as [|x before]; cbn [app] in *.
  - left. reflexivity.
  - destruct Hc as [Hc|Hc]; [now left|].
    rewrite has_gt_app in Hc. cbn in Hc.
    rewrite has_gt_app in Hc. cbn in Hc.
    rewrite !orb_true_r in Hc. discriminate.
Qed.

Lemma nested_free_suffix a b :
  nested_free (a ++ b) = true -> nested_free b = true.
Proof.
  induction a as [|c a IH]; [auto|]. cbn [app nested_free].
  destruct (match_generic (c :: a ++ b)) as [[g r]|]; [|exact IH].
  intros H. apply andb_true_iff in H. now apply IH.
Qed.

Lemma nested_free_head s g rest :
  nested_free s = true -> match_generic s = Some (g, rest) ->
  has_lt g = false.
Proof.
  destruct s as [|c t]; [discriminate|]. cbn [nested_free].
  intros H Hm. rewrite Hm in H. apply andb_true_iff in H.
  destruct H as [H _]. now apply negb_true_iff in H.
Qed.

Lemma has_lt_app a b : has_lt (a ++ b) = has_lt a || has_lt b.
Proof. unfold has_lt. apply existsb_app. Qed.

Lemma re_sub_free s :
  nested_free s = true -> free match_generic (re_sub s) [].
Proof.
  funelim (re_sub s); intros Hnf.
  - match goal with E : search match_generic _ = Some _ |- _ =>
      pose proof (@search_some _ _ _ _ _ E) as X
    end.
    destruct X as (tail & Hs & Hm & Hfree).
    destruct (match_generic_some _ Hm) as (u & inner & Hg & Hu & Hin & Ht).
    rewrite Hs in Hnf. apply nested_free_suffix in Hnf.
    pose proof (nested_free_head _ Hnf Hm) as Hg_lt.
    assert (Hrest : nested_free rest = true).
    { apply (nested_free_suffix (chr_lt :: g ++ [chr_gt]) rest).
      cbn [app]. rewrite <- app_assoc. cbn [app]. now rewrite <- Ht. }
    match goal with IH : nested_free rest = true -> _ |- _ =>
      specialize (IH Hrest) end.
    apply free_app.
    + rewrite Ht in Hfree. unfold ent_lt at 1.
      cbn [lit list_ascii_of_string app].
      now apply (@free_before_entity before g rest).
    + rewrite !app_assoc. apply free_app; [|assumption].
      apply no_lt_free. rewrite !has_lt_app, Hg_lt. reflexivity.
  - match goal with E : search match_generic _ = None |- _ =>
      exact (@search_none _ _ E)
    end.
Qed.

Lemma re_sub_idempotent s :
  nested_free s = true -> re_sub (re_sub s) = re_sub s.
Proof.
  intros H. rewrite (re_sub_eq (re_sub s)).
  now rewrite (search_missing (re_sub_free _ H)).
Qed.

Lemma escape_part_idempotent part :
  flat_part part = true -> escape_part (escape_part part) = escape_part part.
Proof.
  unfold flat_part, escape_part.
  destruct (startswith [chr_bt] part && endswith [chr_bt] part) eqn:E.
  - now rewrite E.
  - cbn [orb]. intros H.
    destruct (startswith [chr_bt] (re_sub part)
              && endswith [chr_bt] (re_sub part)); [reflexivity|].
    now apply re_sub_idempotent.
Qed.

Lemma escape_line_idempotent line :
  flat_line line = true -> escape_line (escape_line line) = escape_line line.
Proof.
  intros H. unfold escape_line at 1. rewrite re_split_escape_line.
  unfold escape_line, flat_line in *. rewrite map_map. f_equal.
  rewrite forallb_forall in H. apply map_ext_in.
  intros p Hp. apply escape_part_idempotent. auto.
Qed.

(** *** The loop on its own output *)

Lemma escape_line_nil : escape_line [] = [].
Proof.
  unfold escape_line. rewrite re_split_eq. cbn.
  unfold escape_part. cbn. now rewrite re_sub_eq.
Qed.

Lemma blank_before_nil prev : blank_before prev [] = [].
Proof. now destruct prev. Qed.

Lemma blank_after_blank line : blank_before (Some []) line = [].
Proof.
  unfold blank_before. replace (needs_blank []) with false by reflexivity.
  now rewrite andb_false_r.
Qed.

Lemma emit_idempotent lines : forall prev b,
  flat_lines b lines = true ->
  emit prev b (emit prev b lines) = emit prev b lines.
Proof.
  induction lines as [|line rest IH]; intros prev b Hflat; [reflexivity|].
  cbn [flat_lines] in Hflat. cbn [emit].
  destruct (is_fence line) eqn:Hf.
  - cbn [emit]. rewrite Hf. f_equal. now apply IH.
  - apply andb_true_iff in Hflat. destruct Hflat as [Hline Hrest].
    destruct b; cbn [negb orb] in *.
    + cbn [emit]. rewrite Hf. cbn [negb]. f_equal. now apply IH.
    + set (item := escape_line line).
      assert (Hfi : is_fence item = false)
        by (unfold item; now rewrite escape_line_is_fence).
      assert (Hii : escape_line item = item)
        by (now apply escape_line_idempotent).
      destruct (blank_before_cases prev item) as [Hbb|Hbb]; rewrite Hbb;
        cbn [app emit].
      * rewrite Hfi, Hii, Hbb. cbn [negb app]. f_equal. now apply IH.
      * replace (is_fence []) with false by reflexivity. cbn [negb].
        rewrite escape_line_nil, blank_before_nil. cbn [app].
        f_equal. rewrite Hfi, Hii, blank_after_blank. cbn [app].
        f_equal. now apply IH.
Qed.

(** ** The order of paths and the collected files *)

Section LexOrder.
Variable A : Type.
Variable cmp : A -> A -> comparison.
Hypothesis cmp_eq : forall x y, cmp x y = Eq -> x = y.
Hypothesis cmp_refl : forall x, cmp x x = Eq.
Hypothesis cmp_lt_trans :
  forall x y z, cmp x y = Lt -> cmp y z = Lt -> cmp x z = Lt.

Lemma lex_compare_eq a : forall b, lex_compare cmp a b = Eq -> a = b.
Proof.
  induction a as [|x a IH]; destruct b as [|y b]; cbn;
    try discriminate; auto.
  destruct (cmp x y) eqn:E; try discriminate.
  intros H. apply cmp_eq in E. subst y. f_equal. auto.
Qed.

Lemma lex_compare_refl a : lex_compare cmp a a = Eq.
Proof. induction a as [|x a IH]; cbn; [|rewrite cmp_refl]; auto. Qed.

Lemma lex_compare_lt_trans a : forall b c,
  lex_compare cmp a b = Lt -> lex_compare cmp b c = Lt ->
  lex_compare cmp a c = Lt.
Proof.
  induction a as [|x a IH]; destruct b as [|y b]; destruct c as [|z c];
    cbn; try discriminate; auto.
  destruct (cmp x y) eqn:Exy; try discriminate;
    destruct (cmp y z) eqn:Eyz; try discriminate.
  - apply cmp_eq in Exy, Eyz. subst. rewrite cmp_refl. apply IH.
  - apply cmp_eq in Exy. subst. now rewrite Eyz.
  - apply cmp_eq in Eyz. subst. now rewrite Exy.
  - now rewrite (cmp_lt_trans Exy Eyz).
Qed.
End LexOrder.

Lemma char_compare_eq x y : char_compare x y = Eq -> x = y.
Proof.
  unfold char_compare, code. intros H. apply Nat.compare_eq in H.
  rewrite <- (ascii_nat_embedding x), <- (ascii_nat_embedding y).
  now rewrite H.
Qed.

Lemma char_compare_refl x : char_compare x x = Eq.
Proof. apply Nat.compare_refl. Qed.

Lemma char_compare_lt_trans x y z :
  char_compare x y = Lt -> char_compare y z = Lt -> char_compare x z = Lt.
Proof.
  unfold char_compare. rewrite !Nat.compare_lt_iff. lia.
Qed.

Lemma path_compare_eq p q : path_compare p q = Eq -> p = q.
Proof.
  apply lex_compare_eq. apply lex_compare_eq. apply char_compare_eq.
Qed.

Lemma path_compare_lt_trans p q r :
  path_compare p q = Lt -> path_compare q r = Lt -> path_compare p r = Lt.
Proof.
  apply lex_compare_lt_trans.
  - apply lex_compare_eq, char_compare_eq.
  - apply lex_compare_refl, char_compare_refl.
  - apply lex_compare_lt_trans.
    + apply char_compare_eq.
    + apply char_compare_refl.
    + apply char_compare_lt_trans.
Qed.

Lemma path_le_trans p q r : path_le p q -> path_le q r -> path_le p r.
Proof.
  unfold path_le, path_leb.
  destruct (path_compare p q) eqn:Epq; try discriminate;
    destruct (path_compare q r) eqn:Eqr; try discriminate; intros _ _.
  - apply path_compare_eq in Epq, Eqr. subst.
    unfold path_compare, str_compare.
    now rewrite (@lex_compare_refl _ _ (@lex_compare_refl _ _ char_compare_refl)).
  - apply path_compare_eq in Epq. subst. now rewrite Eqr.
  - apply path_compare_eq in Eqr. subst. now rewrite Epq.
  - now rewrite (@path_compare_lt_trans _ _ _ Epq Eqr).
Qed.

Lemma sorted_strongly paths : StronglySorted path_le (sorted paths).
Proof.
  unfold sorted.
  assert (Htrans : Transitive (fun p q => is_true (PathOrder.leb p q))).
  { intros p q r. apply path_le_trans. }
  exact (PathSort.StronglySorted_sort paths Htrans).
Qed.

Lemma sorted_permutation paths : Permutation (sorted paths) paths.
Proof. symmetry. apply PathSort.Permuted_sort. Qed.

Lemma filter_strongly_sorted (f : Path -> bool) paths :
  StronglySorted path_le paths -> StronglySorted path_le (filter f paths).
Proof.
  induction 1 as [|p paths Hs IH Hall]; cbn; [constructor|].
  destruct (f p); [|exact IH]. constructor; [exact IH|].
  rewrite Forall_forall in *. intros q Hq. apply filter_In in Hq.
  apply Hall. tauto.
Qed.

(** What a directory scan returns: in path order, the regular files at the
    requested depth whose name ends in [.md], in lower case. *)
Lemma get_md_files_directory fs d recursive :
  is_file fs d = false ->
  StronglySorted path_le (get_md_files fs d recursive)
  /\ forall f,
       In f (get_md_files fs d recursive) <->
       In f (map fst fs)
       /\ is_file fs f = true
       /\ (if recursive then below d f else child_of d f) = true
       /\ endswith (lit ".md") (name f) = true.
Proof.
  intros Hd. unfold get_md_files. rewrite Hd. split.
  - apply filter_strongly_sorted, sorted_strongly.
  - intros f. rewrite filter_In.
    assert (Hperm : forall l, In f (sorted l) <-> In f l).
    { intros l. split; apply Permutation_in;
        [apply sorted_permutation|symmetry; apply sorted_permutation]. }
    rewrite Hperm. unfold glob, matches_md.
    destruct recursive; cbn [str_eqb]; vm_compute str_eqb; cbv iota;
      rewrite filter_In, andb_true_iff; tauto.
Qed.

Lemma name_snoc (d : Path) n : name (d ++ [n]) = n.
Proof. unfold name. apply last_last. Qed.

Lemma upper_suffix_not_lower (n : str) :
  endswith (lit ".MD") n = true -> endswith (lit ".md") n = false.
Proof.
  unfold endswith. cbn [lit list_ascii_of_string rev app].
  destruct (rev n) as [|a t]; cbn [startswith]; [discriminate|].
  intros H. apply andb_true_iff in H. destruct H as [Ha _].
  apply Ascii.eqb_eq in Ha. subst a. reflexivity.
Qed.

(** ** The two generators *)


(** ** Fenced regions *)

(** C2. Every line of a matched fenced region, the two delimiter lines
    included, is emitted exactly as it was read: the region appears in the
    output as one unbroken block, with no line escaped and no empty line
    inserted before any of its lines. *)
Theorem fenced_region_verbatim s pre opening body closing post :
  split_lines s = pre ++ opening :: body ++ closing :: post ->
  Nat.even (count_fences pre) = true ->
  is_fence opening = true ->
  is_fence closing = true ->
  Forall (fun l => is_fence l = false) body ->
  process_lines (split_lines s)
  = process_lines pre ++ opening :: body ++ closing
      :: emit (Some closing) false post
  /\ preprocess_markdown s
     = join_lines (process_lines pre ++ opening :: body ++ closing
                     :: emit (Some closing) false post).
Proof.
  intros Hs Hpre Ho Hc Hbody.
  assert (E : process_lines (split_lines s)
    = process_lines pre ++ opening :: body ++ closing
        :: emit (Some closing) false post).
  { rewrite Hs, !process_lines_emit, emit_app.
    rewrite (flag_after_even false pre Hpre). f_equal.
    cbn [emit]. rewrite Ho. cbn [negb]. f_equal.
    rewrite emit_app, (emit_in_code _ Hbody). f_equal.
    rewrite flag_after_even
      by (now rewrite (count_fences_none Hbody)).
    cbn [emit]. rewrite Hc. reflexivity. }
  split; [exact E|]. unfold preprocess_markdown. now rewrite E.
Qed.

Lemma fenced_region_verbatim_witness :
  preprocess_markdown
    (lit "text" ++ chr_nl :: lit "```rust" ++ chr_nl :: lit "- Vec<T>"
       ++ chr_nl :: lit "```" ++ chr_nl :: lit "- Vec<T>")
  = join_lines
      (process_lines [lit "text"] ++ lit "```rust" :: [lit "- Vec<T>"]
         ++ lit "```" :: emit (Some (lit "```")) false [lit "- Vec<T>"]).
Proof.
  apply (@fenced_region_verbatim _ [lit "text"] (lit "```rust")
           [lit "- Vec<T>"] (lit "```") [lit "- Vec<T>"]).
  - vm_compute; reflexivity.
  - vm_compute; reflexivity.
  - vm_compute; reflexivity.
  - vm_compute; reflexivity.
  - repeat constructor.
Defined.

(** C7. With an odd number of fence lines nothing fails: the flag is still
    set when the loop ends, and every line after the last fence line is
    emitted as it was read, with nothing inserted. *)
Theorem unbalanced_fence_stays_open s :
  Nat.odd (count_fences (split_lines s)) = true ->
  exists pre f post,
    split_lines s = pre ++ f :: post
    /\ is_fence f = true
    /\ Forall (fun l => is_fence l = false) post
    /\ final_in_code_block (split_lines s) = true
    /\ process_lines (split_lines s) = process_lines pre ++ f :: post
    /\ preprocess_markdown s = join_lines (process_lines pre ++ f :: post).
Proof.
  intros Hodd.
  assert (Hnz : count_fences (split_lines s) <> 0)
    by (intros Hz; rewrite Hz in Hodd; discriminate).
  destruct (last_fence_split _ Hnz) as (pre & f & post & Hs & Hf & Hpost).
  exists pre, f, post.
  assert (Hpre : Nat.even (count_fences pre) = true).
  { rewrite Hs, count_fences_app, count_fences_cons, Hf in Hodd.
    rewrite (count_fences_none Hpost) in Hodd.
    replace (count_fences pre + (1 + 0)) with (S (count_fences pre)) in Hodd
      by lia.
    now rewrite Nat.odd_succ in Hodd. }
  assert (E : process_lines (split_lines s) = process_lines pre ++ f :: post).
  { rewrite Hs, !process_lines_emit, emit_app.
    rewrite (flag_after_even false pre Hpre). f_equal.
    cbn [emit]. rewrite Hf. cbn [negb]. now rewrite (emit_in_code _ Hpost). }
  repeat split; auto.
  - now rewrite final_in_code_block_flag.
  - unfold preprocess_markdown. now rewrite E.
Qed.

Lemma unbalanced_fence_stays_open_witness :
  exists pre f post,
    split_lines (lit "a" ++ chr_nl :: lit "```" ++ chr_nl :: lit "- Vec<T>")
      = pre ++ f :: post
    /\ is_fence f = true
    /\ Forall (fun l => is_fence l = false) post
    /\ final_in_code_block
         (split_lines (lit "a" ++ chr_nl :: lit "```" ++ chr_nl :: lit "- Vec<T>"))
       = true
    /\ process_lines
         (split_lines (lit "a" ++ chr_nl :: lit "```" ++ chr_nl :: lit "- Vec<T>"))
       = process_lines pre ++ f :: post
    /\ preprocess_markdown
         (lit "a" ++ chr_nl :: lit "```" ++ chr_nl :: lit "- Vec<T>")
       = join_lines (process_lines pre ++ f :: post).
Proof.
  apply (@unbalanced_fence_stays_open
           (lit "a" ++ chr_nl :: lit "```" ++ chr_nl :: lit "- Vec<T>")).
  vm_compute; reflexivity.
Defined.

(** ** Blank lines before list items *)

Lemma last_emitted_last out :
  out <> [] -> last_emitted None out = Some (last out []).
Proof. destruct out; [congruence|reflexivity]. Qed.

Lemma emitted_prefix_last pre :
  pre <> [] ->
  exists init,
    process_lines pre = init ++ [last (process_lines pre) []].
Proof.
  intros Hpre. exists (removelast (process_lines pre)).
  apply app_removelast_last. rewrite process_lines_emit.
  now apply emit_nonempty.
Qed.

Lemma needs_blank_spec prev_line :
  needs_blank prev_line = true <->
  strip prev_line <> []
  /\ startswith bullet prev_line = false
  /\ match_numbered prev_line = false
  /\ startswith hash prev_line = false.
Proof.
  unfold needs_blank. rewrite !andb_true_iff, !negb_true_iff.
  destruct (strip prev_line); cbn [is_empty]; intuition congruence.
Qed.

(** C3. A line that is not the first one, lies outside fenced code and is a
    list item once escaped gets exactly one empty line in front of it if and
    only if the line emitted just before is non-blank and is neither a list
    item nor a header; in every other case it directly follows that line. *)
Theorem blank_line_before_list_item s pre line post :
  split_lines s = pre ++ line :: post ->
  pre <> [] ->
  Nat.even (count_fences pre) = true ->
  is_fence line = false ->
  startswith bullet (escape_line line) = true
    \/ match_numbered (escape_line line) = true ->
  let prev_line := last (process_lines pre) [] in
  let item := escape_line line in
  let rest := emit (Some item) false post in
  let qualifies :=
    strip prev_line <> []
    /\ startswith bullet prev_line = false
    /\ match_numbered prev_line = false
    /\ startswith hash prev_line = false in
  (exists init, process_lines pre = init ++ [prev_line])
  /\ (qualifies <->
      process_lines (split_lines s) = process_lines pre ++ [] :: item :: rest)
  /\ (~ qualifies <->
      process_lines (split_lines s) = process_lines pre ++ item :: rest).
Proof.
  intros Hs Hpre Heven Hf Hitem prev_line item rest qualifies.
  assert (Hli : is_list_item item = true)
    by (unfold is_list_item; apply orb_true_iff; exact Hitem).
  assert (Hne : item <> []).
  { intros E. rewrite E in Hli. discriminate. }
  assert (Hout : process_lines (split_lines s)
    = process_lines pre
      ++ (if needs_blank prev_line then [[]] else []) ++ item :: rest).
  { rewrite Hs, !process_lines_emit, emit_app.
    rewrite (flag_after_even false pre Heven). f_equal.
    rewrite last_emitted_last by (now apply emit_nonempty).
    cbn [emit]. rewrite Hf. cbn [negb]. unfold blank_before.
    fold item. rewrite Hli. cbn [andb]. unfold prev_line.
    rewrite process_lines_emit. reflexivity. }
  split; [now apply emitted_prefix_last|].
  assert (Hq : qualifies <-> needs_blank prev_line = true)
    by (symmetry; apply needs_blank_spec).
  rewrite Hout. destruct (needs_blank prev_line) eqn:Hnb; cbn [app].
  - assert (Q : qualifies) by (apply Hq; reflexivity).
    split; split.
    + reflexivity.
    + intros _. exact Q.
    + intros NQ. contradiction.
    + intros E. exfalso. apply app_inv_head in E. injection E as E _.
      symmetry in E. contradiction.
  - assert (NQ : ~ qualifies) by (intros Q; apply Hq in Q; discriminate).
    split; split.
    + intros Q. contradiction.
    + intros E. exfalso. apply app_inv_head in E. injection E as E _.
      contradiction.
    + reflexivity.
    + intros _. exact NQ.
Qed.

Lemma blank_line_before_list_item_witness :
  let s := lit "Some paragraph text." ++ chr_nl :: lit "- Item<T> 1"
             ++ chr_nl :: lit "- Item 2" in
  let pre := [lit "Some paragraph text."] in
  let prev_line := last (process_lines pre) [] in
  let item := escape_line (lit "- Item<T> 1") in
  let rest := emit (Some item) false [lit "- Item 2"] in
  let qualifies :=
    strip prev_line <> []
    /\ startswith bullet prev_line = false
    /\ match_numbered prev_line = false
    /\ startswith hash prev_line = false in
  (exists init, process_lines pre = init ++ [prev_line])
  /\ (qualifies <->
      process_lines (split_lines s) = process_lines pre ++ [] :: item :: rest)
  /\ (~ qualifies <->
      process_lines (split_lines s) = process_lines pre ++ item :: rest).
Proof.
  apply (@blank_line_before_list_item
           (lit "Some paragraph text." ++ chr_nl :: lit "- Item<T> 1"
              ++ chr_nl :: lit "- Item 2")
           [lit "Some paragraph text."] (lit "- Item<T> 1") [lit "- Item 2"]).
  - vm_compute; reflexivity.
  - discriminate.
  - vm_compute; reflexivity.
  - vm_compute; reflexivity.
  - left. vm_compute; reflexivity.
Defined.

Lemma list_item_needs_no_blank prev_line :
  startswith bullet prev_line = true \/ match_numbered prev_line = true ->
  needs_blank prev_line = false.
Proof.
  unfold needs_blank. intros [H|H]; rewrite H; cbn;
    now rewrite ?andb_false_r.
Qed.

(** One step of the loop after a line that asks for no blank line. *)
Lemma emit_after_list_item prev_line b line post :
  needs_blank prev_line = false ->
  exists line',
    (line' = line \/ line' = escape_line line)
    /\ emit (Some prev_line) b (line :: post)
       = line' :: emit (Some line') (flag_after b [line]) post.
Proof.
  intros Hnb. cbn [emit]. rewrite flag_after_cons, flag_after_nil.
  destruct (is_fence line).
  - exists line. auto.
  - destruct b; cbn [negb].
    + exists line. auto.
    + exists (escape_line line). split; [auto|].
      unfold blank_before. rewrite Hnb, andb_false_r. reflexivity.
Qed.

(** C6. A numbered item that follows an emitted bullet item, or a bullet
    item that follows an emitted numbered item, is emitted directly after it:
    no empty line comes between the two. *)
Theorem no_blank_between_list_kinds s pre line post :
  split_lines s = pre ++ line :: post ->
  let prev_line := last (process_lines pre) [] in
  (startswith bullet prev_line = true /\ match_numbered line = true)
  \/ (match_numbered prev_line = true /\ startswith bullet line = true) ->
  exists init line' rest,
    process_lines pre = init ++ [prev_line]
    /\ (line' = line \/ line' = escape_line line)
    /\ process_lines (split_lines s) = init ++ prev_line :: line' :: rest.
Proof.
  intros Hs prev_line Hkinds.
  assert (Hprev : startswith bullet prev_line = true
                  \/ match_numbered prev_line = true) by tauto.
  assert (Hpre : pre <> []).
  { intros ->. unfold prev_line in Hprev. cbn in Hprev.
    destruct Hprev; discriminate. }
  destruct (emitted_prefix_last Hpre) as [init Hinit]. fold prev_line in Hinit.
  destruct (@emit_after_list_item prev_line
              (flag_after false pre) line post
              (list_item_needs_no_blank _ Hprev)) as (line' & Hl' & Hstep).
  exists init, line', (emit (Some line') (flag_after (flag_after false pre) [line]) post).
  split; [exact Hinit|]. split; [exact Hl'|].
  rewrite Hs, process_lines_emit, emit_app.
  rewrite last_emitted_last by (now apply emit_nonempty).
  rewrite <- process_lines_emit. fold prev_line. rewrite Hstep, Hinit.
  rewrite <- app_assoc. reflexivity.
Qed.

Lemma no_blank_between_list_kinds_witness :
  exists init line' rest,
    process_lines [lit "- Bullet"] = init ++ [last (process_lines [lit "- Bullet"]) []]
    /\ (line' = lit "1. Numbered" \/ line' = escape_line (lit "1. Numbered"))
    /\ process_lines (split_lines (lit "- Bullet" ++ chr_nl :: lit "1. Numbered"))
       = init ++ last (process_lines [lit "- Bullet"]) [] :: line' :: rest.
Proof.
  apply (@no_blank_between_list_kinds
           (lit "- Bullet" ++ chr_nl :: lit "1. Numbered")
           [lit "- Bullet"] (lit "1. Numbered") []).
  - vm_compute; reflexivity.
  - left. split; vm_compute; reflexivity.
Defined.

(** ** Lines are rewritten in place *)

(** C5. The lines of the output are the lines of the input in their
    order, each either as read or escaped by fix 1, with empty lines
    possibly inserted in front of some of them.  The number of lines never
    goes down, and an escaped line differs from the line read only by
    angle brackets written as entities, so that undoing them gives the line
    back. *)
Theorem lines_kept_in_order s :
  Woven rewritten (split_lines s) (split_lines (preprocess_markdown s))
  /\ (forall line line', rewritten line line' -> Ent line line')
  /\ length (split_lines s) <= length (split_lines (preprocess_markdown s)).
Proof.
  rewrite output_lines, process_lines_emit. split; [apply emit_woven|].
  split; [apply rewritten_Ent|].
  apply (@Woven_length rewritten). apply emit_woven.
Qed.

Lemma lines_kept_in_order_witness :
  let s := lit "Intro" ++ chr_nl :: lit "- Box<T>" in
  Woven rewritten (split_lines s) (split_lines (preprocess_markdown s))
  /\ Ent (lit "- Box<T>") (escape_line (lit "- Box<T>"))
  /\ length (split_lines s) <= length (split_lines (preprocess_markdown s)).
Proof.
  destruct (lines_kept_in_order (lit "Intro" ++ chr_nl :: lit "- Box<T>"))
    as (H1 & H2 & H3).
  split; [exact H1|]. split; [|exact H3]. apply H2. constructor.
Defined.

(** ** Escaping of generics *)

Example generic_across_lines :
  preprocess_markdown (lit "<A" ++ chr_nl :: lit ">")
  = lit "<A" ++ chr_nl :: lit ">".
Proof. vm_compute. reflexivity. Qed.

(** The spans that are kept are the parts the split isolates: between two
    of them, text that itself stands between backticks is escaped. *)
Example text_between_spans :
  preprocess_markdown (lit "`a`<T>`b`") = lit "`a`&lt;T&gt;`b`".
Proof. vm_compute. reflexivity. Qed.

(** C1, as stated, fails: in [Vec<Option<T>>], which holds no backtick, the
    substring [<T>] is an occurrence of the pattern, yet [&lt;T&gt;] is
    nowhere in the output, which is [Vec&lt;Option<T&gt;>]. *)
Lemma nested_generic_not_escaped :
  ~ (forall s, has_bt s = false ->
     forall pre u inner post,
       s = pre ++ chr_lt :: u :: inner ++ chr_gt :: post ->
       is_upper u = true -> has_gt inner = false ->
       exists a b,
         preprocess_markdown s = a ++ (ent_lt ++ u :: inner ++ ent_gt) ++ b).
Proof.
  intros H.
  destruct (H (lit "Vec<Option<T>>") eq_refl
              (lit "Vec<Option") "T"%char [] (lit ">")
              eq_refl eq_refl eq_refl) as (a & b & E).
  pose proof (is_infix_intro (ent_lt ++ "T"%char :: [] ++ ent_gt) a b) as Hin.
  rewrite <- E in Hin. vm_compute in Hin. discriminate.
Qed.

(** C1, amended.  In a text without backticks every line is rewritten on
    its own, from left to right: an occurrence of [<], uppercase letter,
    characters other than [>], [>] is replaced by [&lt;], the bracketed
    content and [&gt;], and the scan resumes after it, so that an occurrence
    that begins inside a replaced one, or that runs over a line break, is
    left alone.  In any text, a part of a line that the split isolates as a
    single-backtick span stands unchanged in the output line. *)
Theorem generics_escaped_spans_kept s :
  (has_bt s = false ->
   Woven Escaped (split_lines s) (split_lines (preprocess_markdown s)))
  /\ Woven spans_kept (split_lines s) (split_lines (preprocess_markdown s)).
Proof.
  rewrite output_lines, process_lines_emit. split.
  - intros Hbt. apply emit_woven_no_bt. now apply split_lines_no_bt.
  - apply (@Woven_impl rewritten); [apply rewritten_spans_kept|].
    apply emit_woven.
Qed.

Lemma generics_escaped_spans_kept_witness :
  Woven Escaped
    (split_lines (lit "Result<T, E> and Vec<Option<T>>"))
    (split_lines (preprocess_markdown (lit "Result<T, E> and Vec<Option<T>>")))
  /\ Woven spans_kept
       (split_lines (lit "Use `Result<T, E>` or Box<T>"))
       (split_lines (preprocess_markdown (lit "Use `Result<T, E>` or Box<T>"))).
Proof.
  split.
  - apply (proj1 (generics_escaped_spans_kept
                    (lit "Result<T, E> and Vec<Option<T>>"))).
    vm_compute. reflexivity.
  - apply (proj2 (generics_escaped_spans_kept
                    (lit "Use `Result<T, E>` or Box<T>"))).
Defined.

(** ** Idempotence *)

(** C4, as stated, fails: [Vec<Option<T>>] holds no backtick at all, its
    first pass gives [Vec&lt;Option<T&gt;>], and the second pass escapes
    the [<T&gt;>] that the first one left. *)
Lemma second_pass_differs :
  ~ (forall s, paired_backticks s ->
     preprocess_markdown (preprocess_markdown s) = preprocess_markdown s).
Proof.
  intros H. specialize (H (lit "Vec<Option<T>>")).
  assert (Hp : paired_backticks (lit "Vec<Option<T>>"))
    by (repeat constructor).
  specialize (H Hp). vm_compute in H. discriminate.
Qed.

(** C4, amended.  A second pass changes nothing when, in the parts of the
    text that fix 1 rewrites (outside fenced code and outside the parts
    kept as code spans), no occurrence of the pattern holds a further [<]
    in its bracketed content; backticks need not be paired. *)
Theorem preprocess_idempotent s :
  flat_lines false (split_lines s) = true ->
  preprocess_markdown (preprocess_markdown s) = preprocess_markdown s.
Proof.
  intros Hflat. unfold preprocess_markdown at 1.
  rewrite output_lines. unfold preprocess_markdown.
  rewrite !process_lines_emit. now rewrite emit_idempotent.
Qed.

Lemma preprocess_idempotent_witness :
  let s := lit "Some text with Result<T, E> and `Vec<Option<T>>` and `odd"
           ++ chr_nl :: lit "- Item<A> 1" ++ chr_nl :: lit "```"
           ++ chr_nl :: lit "Vec<Option<T>>" in
  preprocess_markdown (preprocess_markdown s) = preprocess_markdown s.
Proof.
  apply (preprocess_idempotent
    (lit "Some text with Result<T, E> and `Vec<Option<T>>` and `odd"
           ++ chr_nl :: lit "- Item<A> 1" ++ chr_nl :: lit "```"
           ++ chr_nl :: lit "Vec<Option<T>>")).
  vm_compute. reflexivity.
Defined.

(** ** The file collector *)

(** C8, at an input where the code departs from it: [docs/README.MD] is a
    markdown file by the test the single-file branch applies, and the
    directory scan of [docs] does not return it. *)
Lemma uppercase_md_missed_in_directory :
  let fs := [ ([lit "docs"], Directory);
              ([lit "docs"; lit "README.MD"], RegularFile) ] in
  get_md_files fs [lit "docs"; lit "README.MD"] true
    = [[lit "docs"; lit "README.MD"]]
  /\ get_md_files fs [lit "docs"] true = []
  /\ get_md_files fs [lit "docs"] false = [].
Proof. repeat split; vm_compute; reflexivity. Qed.

(** The order of the result is the order of [Path] objects, component by
    component; it is not the order of the paths written as strings, which
    is the one the test [test_files_are_sorted] compares with. *)
Example path_order_is_not_string_order :
  let fs := [ ([lit "docs"], Directory);
              ([lit "docs"; lit "intro.md"], RegularFile);
              ([lit "docs"; lit "intro"], Directory);
              ([lit "docs"; lit "intro"; lit "part1.md"], RegularFile) ] in
  get_md_files fs [lit "docs"] true
    = [ [lit "docs"; lit "intro"; lit "part1.md"];
        [lit "docs"; lit "intro.md"] ]
  /\ str_compare (path_str [lit "docs"; lit "intro"; lit "part1.md"])
                 (path_str [lit "docs"; lit "intro.md"]) = Gt.
Proof. split; vm_compute; reflexivity. Qed.

(** C10. The two branches test the extension differently.  A single file
    is accepted when its suffix, in lower case, is [.md], so that
    [README.MD] is returned; a directory scan returns only names that end
    in [.md] as written, so that a name ending in [.MD] is never
    returned. *)
Theorem md_extension_case_asymmetry fs (d : Path) recursive :
  (is_file fs (d ++ [lit "README.MD"]) = true ->
   get_md_files fs (d ++ [lit "README.MD"]) recursive
   = [d ++ [lit "README.MD"]])
  /\ (forall p, is_file fs p = true ->
      get_md_files fs p recursive
      = if str_eqb (lower (suffix p)) (lit ".md") then [p] else [])
  /\ (is_file fs d = false ->
      forall f, In f (get_md_files fs d recursive) ->
                endswith (lit ".md") (name f) = true)
  /\ (is_file fs d = false ->
      forall f, endswith (lit ".MD") (name f) = true ->
                ~ In f (get_md_files fs d recursive)).
Proof.
  repeat split.
  - intros Hf. unfold get_md_files. rewrite Hf.
    unfold suffix. rewrite name_snoc. vm_compute. reflexivity.
  - intros p Hf. unfold get_md_files. now rewrite Hf.
  - intros Hd f Hin.
    apply (proj2 (get_md_files_directory fs d recursive Hd)) in Hin. tauto.
  - intros Hd f Hup Hin.
    apply (proj2 (get_md_files_directory fs d recursive Hd)) in Hin.
    rewrite (upper_suffix_not_lower _ Hup) in Hin.
    destruct Hin as (_ & _ & _ & H). discriminate.
Qed.

Lemma md_extension_case_asymmetry_witness :
  let fs := [ ([lit "docs"], Directory);
              ([lit "docs"; lit "README.MD"], RegularFile);
              ([lit "docs"; lit "guide.md"], RegularFile) ] in
  get_md_files fs ([lit "docs"] ++ [lit "README.MD"]) true
    = [[lit "docs"] ++ [lit "README.MD"]]
  /\ ~ In [lit "docs"; lit "README.MD"] (get_md_files fs [lit "docs"] true).
Proof.
  pose proof (md_extension_case_asymmetry
    [ ([lit "docs"], Directory);
      ([lit "docs"; lit "README.MD"], RegularFile);
      ([lit "docs"; lit "guide.md"], RegularFile) ] [lit "docs"] true)
    as (H1 & _ & _ & H4).
  split.
  - apply H1. vm_compute. reflexivity.
  - apply H4; vm_compute; reflexivity.
Defined.

(** ** Exit behaviour *)






(** The ways a call can go, on the fixture of the test suite. *)
Example generate_pdf_runs :
  let w := {| files := sample_md_dir; version_file := VersionText (lit "1.2 ");
              converts := fun _ => true;
              mkdir := fun d => negb (path_eqb d [lit "docs"; lit "01-intro.md"]);
              write_pdf := fun _ => true;
              write_epub := fun _ => EpubWriteIgnored |} in
  ending (generate_pdf w [lit "missing"] [lit "output"] None None)
    = SysExit 1
  /\ ending (generate_pdf w [lit "docs"; lit "notes.txt"] [lit "output"]
               None None)
     = SysExit 1
  /\ ending (generate_pdf w [lit "docs"] [lit "output"] None None)
     = Returned [lit "output"; lit "docs_v1.2.pdf"]
  /\ generate_pdf w [lit "docs"; lit "01-intro.md"]
       [lit "docs"; lit "01-intro.md"] None None
     = raised [Found 1 [lit "docs"; lit "01-intro.md"] (lit "1.2");
               Processing (lit "01-intro.md")]
  /\ generate_epub w [lit "docs"; lit "01-intro.md"] [lit "output"] None
     = {| printed :=
            [Found 1 [lit "docs"; lit "01-intro.md"] (lit "1.2");
             Processing (lit "01-intro.md");
             Generating [lit "output"; lit "01-intro_v1.2.epub"];
             Generated [lit "output"; lit "01-intro_v1.2.epub"]];
          ending := Returned [lit "output"; lit "01-intro_v1.2.epub"];
          written := [] |}.
Proof. repeat split; vm_compute; reflexivity. Qed.

(** ** Further properties of preprocess_markdown *)

Lemma blank_before_calls prev line :
  blank_before prev line = if calls_for_blank prev line then [[]] else [].
Proof. destruct prev; reflexivity. Qed.

Lemma is_fence_nil : is_fence [] = false.
Proof. reflexivity. Qed.

Lemma emit_fences lines : forall prev b,
  filter is_fence (emit prev b lines) = filter is_fence lines.
Proof.
  induction lines as [|line rest IH]; intros prev b; [reflexivity|].
  cbn [emit filter]. destruct (is_fence line) eqn:Hf.
  - cbn [filter]. rewrite Hf. f_equal. apply IH.
  - destruct (negb b).
    + rewrite filter_app. cbn [filter].
      rewrite escape_line_is_fence, Hf, IH.
      destruct (blank_before_cases prev (escape_line line)) as [-> | ->];
        reflexivity.
    + cbn [filter]. rewrite Hf. apply IH.
Qed.

(** X1. The lines that open or close a fenced block are the same in the
    output as in the input, in the same order: escaping never turns a line
    into a fence line or a fence line into something else, and no inserted
    line is one.  The flag therefore ends with the same value on a second
    pass. *)
Theorem fence_lines_preserved s :
  filter is_fence (split_lines (preprocess_markdown s))
  = filter is_fence (split_lines s)
  /\ final_in_code_block (split_lines (preprocess_markdown s))
     = final_in_code_block (split_lines s).
Proof.
  assert (E : filter is_fence (split_lines (preprocess_markdown s))
              = filter is_fence (split_lines s))
    by (rewrite output_lines, process_lines_emit; apply emit_fences).
  split; [exact E|].
  rewrite !final_in_code_block_flag. unfold count_fences. now rewrite E.
Qed.

Lemma needs_blank_nonempty p : needs_blank p = true -> p <> [].
Proof. intros H E. subst p. discriminate H. Qed.

Lemma list_item_nonempty line : is_list_item line = true -> line <> [].
Proof. intros H E. subst line. discriminate H. Qed.

Lemma calls_for_blank_nil prev : calls_for_blank prev [] = false.
Proof. destruct prev; reflexivity. Qed.

Lemma calls_after_blank line : calls_for_blank (Some []) line = false.
Proof. cbn. apply andb_false_r. Qed.

Lemma emit_lists_spaced lines : forall prev b,
  lists_spaced prev b (emit prev b lines) = true.
Proof.
  induction lines as [|line rest IH]; intros prev b; [reflexivity|].
  cbn [emit]. destruct (is_fence line) eqn:Hf.
  - cbn [lists_spaced]. rewrite Hf. apply IH.
  - destruct b; cbn [negb].
    + cbn [lists_spaced]. rewrite Hf. cbn [orb andb]. apply IH.
    + set (item := escape_line line).
      assert (Hfi : is_fence item = false)
        by (unfold item; now rewrite escape_line_is_fence).
      rewrite blank_before_calls.
      destruct (calls_for_blank prev item) eqn:Hc; cbn [app lists_spaced].
      * rewrite is_fence_nil, Hfi. cbn [orb].
        rewrite calls_for_blank_nil. cbn [negb andb].
        rewrite calls_after_blank. cbn [negb andb]. apply IH.
      * rewrite Hfi, Hc. cbn [orb negb andb]. apply IH.
Qed.

(** X2. Fix 2 reaches its aim on every input: in the output, outside
    fenced code, a list item never directly follows a non-blank line that is
    neither a list item nor a header. *)
Theorem output_lists_spaced s :
  lists_spaced None false (split_lines (preprocess_markdown s)) = true.
Proof.
  rewrite output_lines, process_lines_emit. apply emit_lists_spaced.
Qed.

Lemma escape_line_empty line : is_empty (escape_line line) = is_empty line.
Proof.
  pose proof (escape_line_Ent line) as H.
  destruct H; reflexivity.
Qed.

Lemma double_blank_cons a b rest :
  double_blank (a :: b :: rest)
  = (is_empty a && is_empty b) || double_blank (b :: rest).
Proof. reflexivity. Qed.

Lemma emit_double_blank lines : forall prev_in prev_out b,
  is_empty prev_out = is_empty prev_in ->
  double_blank (prev_in :: lines) = false ->
  double_blank (prev_out :: emit (Some prev_out) b lines) = false.
Proof.
  induction lines as [|line rest IH]; intros prev_in prev_out b Hp Hd;
    [reflexivity|].
  rewrite double_blank_cons in Hd. apply orb_false_iff in Hd.
  destruct Hd as [Hpair Hrest]. cbn [emit].
  destruct (is_fence line) eqn:Hf.
  - rewrite double_blank_cons, Hp, Hpair. cbn [orb]. now apply (IH line).
  - destruct b; cbn [negb].
    + rewrite double_blank_cons, Hp, Hpair. cbn [orb]. now apply (IH line).
    + set (item := escape_line line).
      assert (Hi : is_empty item = is_empty line)
        by apply escape_line_empty.
      assert (Hnext : double_blank (item :: emit (Some item) false rest)
                      = false) by (now apply (IH line)).
      rewrite blank_before_calls. cbn [calls_for_blank].
      destruct (is_list_item item && needs_blank prev_out) eqn:Hc;
        cbn [app].
      * apply andb_true_iff in Hc. destruct Hc as [Hli Hnb].
        apply needs_blank_nonempty in Hnb. apply list_item_nonempty in Hli.
        rewrite !double_blank_cons, Hnext.
        destruct prev_out; [contradiction|]. destruct item; [contradiction|].
        reflexivity.
      * rewrite double_blank_cons, Hp, Hi, Hpair, Hnext. reflexivity.
Qed.

(** X3. No run of empty lines is created: when the input never has two
    empty lines in a row, neither has the output, since an empty line is
    only inserted between two non-empty lines. *)
Theorem no_double_blank_created s :
  double_blank (split_lines s) = false ->
  double_blank (split_lines (preprocess_markdown s)) = false.
Proof.
  rewrite output_lines, process_lines_emit.
  destruct (split_lines s) as [|line rest]; [auto|]. intros Hd.
  cbn [emit]. destruct (is_fence line).
  - now apply (emit_double_blank rest line).
  - cbn [negb blank_before app].
    apply (emit_double_blank rest line); [apply escape_line_empty|exact Hd].
Qed.

Lemma no_double_blank_created_witness :
  double_blank
    (split_lines
       (preprocess_markdown (lit "Intro" ++ chr_nl :: lit "- Box<T>")))
  = false.
Proof.
  apply (no_double_blank_created (lit "Intro" ++ chr_nl :: lit "- Box<T>")).
  vm_compute. reflexivity.
Defined.

(** *** Text that fix 1 leaves alone *)

Lemma no_gt_free a : has_gt a = false -> free match_generic a [].
Proof.
  induction a as [|c a IH]; intros H; [apply free_nil|].
  unfold has_gt in H. cbn in H. apply orb_false_iff in H.
  destruct H as [_ Ha]. apply free_cons; [|now apply IH].
  rewrite app_nil_r. apply match_generic_none. right.
  destruct a as [|u t]; [exact I|]. right.
  unfold has_gt in Ha. cbn in Ha. apply orb_false_iff in Ha. tauto.
Qed.

Lemma re_sub_unchanged p :
  has_lt p = false \/ has_gt p = false -> re_sub p = p.
Proof.
  intros H. rewrite re_sub_eq, search_missing; [reflexivity|].
  destruct H as [H|H]; [now apply no_lt_free|now apply no_gt_free].
Qed.

Lemma existsb_concat (f : ascii -> bool) (parts : list str) :
  existsb f (concat parts) = false ->
  forall p, In p parts -> existsb f p = false.
Proof.
  induction parts as [|q parts IH]; cbn; [tauto|].
  rewrite existsb_app. intros H p [<-|Hp];
    apply orb_false_iff in H; [tauto|]. apply IH; tauto.
Qed.

Lemma escape_line_unchanged line :
  has_lt line = false \/ has_gt line = false -> escape_line line = line.
Proof.
  intros H. unfold escape_line.
  rewrite <- (re_split_concat line) at 2. f_equal.
  rewrite <- (map_id (re_split line)) at 2. apply map_ext_in.
  intros p Hp. destruct (escape_part_cases p) as [-> | ->]; [reflexivity|].
  apply re_sub_unchanged.
  rewrite <- (re_split_concat line) in H. unfold has_lt, has_gt in *.
  destruct H as [H|H]; [left|right]; now apply (existsb_concat _ _ H).
Qed.

Lemma split_lines_existsb (f : ascii -> bool) s :
  existsb f s = false ->
  Forall (fun l => existsb f l = false) (split_lines s).
Proof.
  induction s as [|c t IH]; cbn [split_lines]; [repeat constructor|].
  cbn [existsb]. intros H. apply orb_false_iff in H.
  destruct H as [Hc Ht]. specialize (IH Ht).
  destruct (Ascii.eqb c chr_nl); [constructor; auto|].
  destruct (split_lines t) as [|l ls].
  - constructor; [|constructor]. cbn. now rewrite Hc.
  - inversion IH as [|? ? Hl Hls]; subst. constructor; [|exact Hls].
    cbn. now rewrite Hc.
Qed.

Lemma emit_woven_unchanged lines : forall prev b,
  Forall (fun l => escape_line l = l) lines ->
  Woven eq lines (emit prev b lines).
Proof.
  induction lines as [|line rest IH]; intros prev b H; [constructor|].
  inversion H as [|? ? Hl Hrest]; subst. cbn [emit].
  destruct (is_fence line).
  - apply Woven_line; [reflexivity|now apply IH].
  - destruct (negb b).
    + rewrite Hl. apply Woven_blank_before; [reflexivity|now apply IH].
    + apply Woven_line; [reflexivity|now apply IH].
Qed.

(** X4. A text that holds no [<], or no [>], is never rewritten: its
    output is the input with empty lines inserted, every line standing as
    it was read. *)
Theorem text_without_brackets_kept s :
  has_lt s = false \/ has_gt s = false ->
  Woven eq (split_lines s) (split_lines (preprocess_markdown s)).
Proof.
  intros H. rewrite output_lines, process_lines_emit.
  apply emit_woven_unchanged.
  destruct H as [H|H]; apply split_lines_existsb in H;
    (eapply Forall_impl; [|exact H]); intros l Hl;
    apply escape_line_unchanged; auto.
Qed.

Lemma text_without_brackets_kept_witness :
  Woven eq
    (split_lines (lit "a > b, `x`" ++ chr_nl :: lit "1. item"))
    (split_lines
       (preprocess_markdown (lit "a > b, `x`" ++ chr_nl :: lit "1. item"))).
Proof.
  apply (text_without_brackets_kept
           (lit "a > b, `x`" ++ chr_nl :: lit "1. item")).
  left. vm_compute. reflexivity.
Defined.

(** *** What fix 1 leaves behind *)

Lemma free_occurrence_free s :
  free match_generic s [] -> occurrence_free s.
Proof.
  intros Hfree a b E Hocc. destruct b as [|c b].
  - destruct Hocc as (u & inner & tail & E' & _). discriminate.
  - apply (no_match_no_occurrence (s := c :: b)); [|exact Hocc].
    rewrite <- (app_nil_r (c :: b)). apply (Hfree a); [exact E|discriminate].
Qed.

Lemma emit_occurrence_free lines : forall prev,
  Forall (fun l => has_bt l = false /\ nested_free l = true) lines ->
  Forall occurrence_free (emit prev false lines).
Proof.
  induction lines as [|line rest IH]; intros prev H; [constructor|].
  inversion H as [|? ? [Hbt Hnf] Hrest]; subst. cbn [emit].
  rewrite (has_bt_false_is_fence _ Hbt). cbn [negb].
  apply Forall_app. split.
  - destruct (blank_before_cases prev (escape_line line)) as [-> | ->];
      repeat constructor.
    apply free_occurrence_free, free_nil.
  - constructor; [|now apply IH].
    rewrite (escape_line_no_bt _ Hbt).
    now apply free_occurrence_free, re_sub_free.
Qed.

(** X5. In a text without backticks in which no occurrence of the
    pattern holds a further [<] in its bracketed content, fix 1 is complete:
    no line of the output holds an occurrence of [<], uppercase letter,
    characters, [>] any more. *)
Theorem no_generic_left s :
  has_bt s = false ->
  Forall (fun l => nested_free l = true) (split_lines s) ->
  Forall occurrence_free (split_lines (preprocess_markdown s)).
Proof.
  intros Hbt Hnf. rewrite output_lines, process_lines_emit.
  apply emit_occurrence_free.
  pose proof (split_lines_no_bt _ Hbt) as Hb.
  rewrite Forall_forall in *. intros l Hl. split; auto.
Qed.

Lemma no_generic_left_witness :
  Forall occurrence_free
    (split_lines
       (preprocess_markdown
          (lit "Result<T, E> or Box<T>" ++ chr_nl :: lit "- Vec<String>"))).
Proof.
  apply (no_generic_left
           (lit "Result<T, E> or Box<T>" ++ chr_nl :: lit "- Vec<String>")).
  - vm_compute. reflexivity.
  - repeat constructor.
Defined.

(** *** What fix 2 looks at *)

Lemma lstrip_first s c t : lstrip s = c :: t -> is_space c = false.
Proof. apply drop_while_head. Qed.

Lemma Ent_digits s s' :
  Ent s s' ->
  take_while is_digit s' = take_while is_digit s
  /\ Ent (drop_while is_digit s) (drop_while is_digit s').
Proof.
  induction 1 as [|c s s' HE [IHt IHd]|s s' HE _|s s' HE _].
  - split; [reflexivity|constructor].
  - cbn [take_while drop_while]. destruct (is_digit c).
    + split; [now rewrite IHt|exact IHd].
    + split; [reflexivity|now constructor].
  - split; [reflexivity|]. now apply Ent_lt.
  - split; [reflexivity|]. now apply Ent_gt.
Qed.

Lemma match_numbered_alt s :
  match_numbered s
  = negb (is_empty (take_while is_digit s))
    && startswith (lit ". ") (drop_while is_digit s).
Proof.
  unfold match_numbered.
  destruct (take_while is_digit s) as [|d ds]; [reflexivity|].
  destruct (drop_while is_digit s) as [|a [|b r]]; cbn;
    rewrite ?andb_false_r; try reflexivity.
  rewrite andb_true_r, (Ascii.eqb_sym a), (Ascii.eqb_sym b). reflexivity.
Qed.

Lemma Ent_match_numbered s s' :
  Ent s s' -> match_numbered s' = match_numbered s.
Proof.
  intros HE. rewrite !match_numbered_alt.
  destruct (Ent_digits HE) as [-> Hd].
  now rewrite (Ent_startswith (lit ". ") eq_refl Hd).
Qed.

Lemma strip_empty s : is_empty (strip s) = is_empty (lstrip s).
Proof.
  destruct (rstrip_decomp (lstrip s)) as (ws & E & Hws).
  fold (strip s) in E. destruct (lstrip s) as [|c t] eqn:El.
  - destruct (strip s); [reflexivity|discriminate].
  - apply lstrip_first in El. destruct (strip s); [|reflexivity].
    cbn in E. subst ws. cbn in Hws. rewrite El in Hws. discriminate.
Qed.

Lemma Ent_lstrip_empty s s' :
  Ent s s' -> is_empty (lstrip s') = is_empty (lstrip s).
Proof.
  unfold lstrip. induction 1 as [|c s s' HE IH|s s' HE _|s s' HE _];
    try reflexivity.
  cbn [drop_while]. destruct (is_space c); [exact IH|reflexivity].
Qed.

(** X16. Escaping does not change what the rest of the loop looks at: a
    line is a fence line, a list item, or a line after which a list item
    needs an empty line, exactly when its escaped form is.  Fix 2 therefore
    decides as it would on the text as read. *)
Theorem escaping_keeps_line_kind line :
  is_fence (escape_line line) = is_fence line
  /\ is_list_item (escape_line line) = is_list_item line
  /\ needs_blank (escape_line line) = needs_blank line.
Proof.
  pose proof (escape_line_Ent line) as HE.
  split; [apply escape_line_is_fence|].
  unfold is_list_item, needs_blank.
  rewrite (Ent_match_numbered HE), !strip_empty, (Ent_lstrip_empty HE).
  rewrite (Ent_startswith bullet eq_refl HE).
  rewrite (Ent_startswith hash eq_refl HE). split; reflexivity.
Qed.

(** ** Further properties of get_md_files *)

Lemma path_le_antisym p q : path_le p q -> path_le q p -> p = q.
Proof.
  unfold path_le, path_leb. rewrite (path_compare_antisym p q).
  destruct (path_compare p q) eqn:E; cbn; try discriminate.
  intros _ _. now apply path_compare_eq.
Qed.

(** Two lists in path order with the same elements are the same list. *)
Lemma sorted_unique l1 : forall l2,
  StronglySorted path_le l1 -> StronglySorted path_le l2 ->
  Permutation l1 l2 -> l1 = l2.
Proof.
  induction l1 as [|a l1 IH]; intros l2 H1 H2 HP.
  - now apply Permutation_nil in HP.
  - destruct l2 as [|b l2];
      [apply Permutation_sym, Permutation_nil in HP; discriminate|].
    inversion H1 as [|? ? Hs1 Ha]; subst.
    inversion H2 as [|? ? Hs2 Hb]; subst.
    assert (E : a = b).
    { assert (Hab : In a (b :: l2))
        by (apply (Permutation_in _ HP); now left).
      assert (Hba : In b (a :: l1))
        by (apply (Permutation_in _ (Permutation_sym HP)); now left).
      destruct Hab as [->|Hab]; [reflexivity|].
      destruct Hba as [->|Hba]; [reflexivity|].
      rewrite Forall_forall in Ha, Hb.
      apply path_le_antisym; auto. }
    subst b. f_equal. apply IH; auto.
    now apply Permutation_cons_inv in HP.
Qed.

Lemma filter_permutation (f : Path -> bool) l l' :
  Permutation l l' -> Permutation (filter f l) (filter f l').
Proof.
  induction 1 as [|x l l' _ IH|x y l|l l' l'' _ IH1 _ IH2]; cbn.
  - constructor.
  - destruct (f x); auto.
  - destruct (f x), (f y); auto using Permutation_refl. constructor.
  - now transitivity (filter f l').
Qed.

Lemma filter_twice (f g : Path -> bool) l :
  filter f (filter g l) = filter (fun x => g x && f x) l.
Proof.
  induction l as [|x l IH]; [reflexivity|]. cbn.
  destruct (g x); cbn; [destruct (f x)|]; now rewrite ?IH.
Qed.

Lemma str_eqb_refl x : str_eqb x x = true.
Proof. unfold str_eqb. now destruct (list_eq_dec ascii_dec x x). Qed.

Lemma path_eqb_eq p q : path_eqb p q = true <-> p = q.
Proof.
  unfold path_eqb.
  destruct (list_eq_dec (list_eq_dec ascii_dec) p q); split;
    congruence.
Qed.

Lemma below_snoc d n : below d (d ++ [n]) = true.
Proof.
  induction d as [|x d IH]; [reflexivity|]. cbn.
  now rewrite str_eqb_refl, IH.
Qed.

Lemma child_of_below d q : child_of d q = true -> below d q = true.
Proof.
  unfold child_of. destruct (rev q) as [|n parent] eqn:E; [discriminate|].
  intros H. apply path_eqb_eq in H. subst d.
  assert (Hq : q = rev parent ++ [n]).
  { rewrite <- (rev_involutive q), E. reflexivity. }
  rewrite Hq. apply below_snoc.
Qed.

Lemma glob_recursive fs d :
  glob fs d (lit "**/*.md")
  = filter (fun q => below d q && matches_md (name q)) (map fst fs).
Proof. reflexivity. Qed.

Lemma glob_top_level fs d :
  glob fs d (lit "*.md")
  = filter (fun q => child_of d q && matches_md (name q)) (map fst fs).
Proof. reflexivity. Qed.

(** X6. What a directory scan returns.  For a path that is not a regular
    file the result is in the order of [Path] objects and holds exactly the
    regular files below it, at any depth when [recursive] is set and
    directly in it otherwise, whose name ends in [.md]. *)
Theorem directory_scan_exact fs d recursive :
  is_file fs d = false ->
  StronglySorted path_le (get_md_files fs d recursive)
  /\ forall f,
       In f (get_md_files fs d recursive) <->
       In f (map fst fs)
       /\ is_file fs f = true
       /\ (if recursive then below d f else child_of d f) = true
       /\ endswith (lit ".md") (name f) = true.
Proof. apply get_md_files_directory. Qed.

Lemma directory_scan_exact_witness :
  StronglySorted path_le (get_md_files sample_md_dir [lit "docs"] true)
  /\ In [lit "docs"; lit "subdir"; lit "03-advanced.md"]
        (get_md_files sample_md_dir [lit "docs"] true).
Proof.
  destruct (directory_scan_exact sample_md_dir [lit "docs"] true eq_refl)
    as [Hs Hin].
  split; [exact Hs|]. apply Hin.
  repeat split; vm_compute; auto 10.
Defined.

(** X7. Whatever the path and the depth, only regular files that exist
    are returned: never a directory, even one whose name ends in [.md], and
    never the path of a file that is not there. *)
Theorem only_regular_files fs p recursive f :
  In f (get_md_files fs p recursive) ->
  is_file fs f = true /\ path_exists fs f = true.
Proof.
  intros Hin.
  assert (Hf : is_file fs f = true).
  { unfold get_md_files in Hin. destruct (is_file fs p) eqn:Hp.
    - destruct (str_eqb (lower (suffix p)) (lit ".md")); [|destruct Hin].
      destruct Hin as [<-|[]]. exact Hp.
    - apply filter_In in Hin. tauto. }
  split; [exact Hf|]. unfold is_file, path_exists in *.
  destruct (lookup fs f); [reflexivity|discriminate].
Qed.

Lemma only_regular_files_witness :
  let fs := [ ([lit "docs"], Directory);
              ([lit "docs"; lit "archive.md"], Directory);
              ([lit "docs"; lit "archive.md"; lit "old.md"], RegularFile) ] in
  is_file fs [lit "docs"; lit "archive.md"; lit "old.md"] = true
  /\ path_exists fs [lit "docs"; lit "archive.md"; lit "old.md"] = true.
Proof.
  apply (only_regular_files
    [ ([lit "docs"], Directory);
      ([lit "docs"; lit "archive.md"], Directory);
      ([lit "docs"; lit "archive.md"; lit "old.md"], RegularFile) ]
    [lit "docs"] true).
  vm_compute. auto.
Defined.

(** X8. The scan of the top level is the recursive scan restricted to the
    entries of the directory itself: the same files in the same order, so
    that turning recursion off only drops files. *)
Theorem top_level_within_recursive fs d :
  is_file fs d = false ->
  get_md_files fs d false = filter (child_of d) (get_md_files fs d true).
Proof.
  intros Hd. apply sorted_unique.
  - apply (proj1 (get_md_files_directory fs d false Hd)).
  - apply filter_strongly_sorted.
    apply (proj1 (get_md_files_directory fs d true Hd)).
  - unfold get_md_files. rewrite Hd. cbv zeta.
    rewrite glob_recursive, glob_top_level.
    rewrite (filter_permutation (is_file fs) (sorted_permutation _)).
    rewrite (filter_permutation (child_of d)
               (filter_permutation (is_file fs) (sorted_permutation _))).
    rewrite !filter_twice.
    match goal with |- Permutation ?a ?b => replace b with a end;
      [reflexivity|].
    apply filter_ext. intros q.
    destruct (child_of d q) eqn:Hc.
    + rewrite (child_of_below _ _ Hc). cbn.
      now rewrite andb_true_r.
    + cbn. now rewrite !andb_false_r.
Qed.

Lemma top_level_within_recursive_witness :
  get_md_files sample_md_dir [lit "docs"] false
  = filter (child_of [lit "docs"])
           (get_md_files sample_md_dir [lit "docs"] true).
Proof.
  apply (top_level_within_recursive sample_md_dir [lit "docs"]).
  vm_compute. reflexivity.
Defined.

(** X9. No file is returned twice, when the file system lists every path
    once. *)
Theorem no_file_twice fs p recursive :
  NoDup (map fst fs) -> NoDup (get_md_files fs p recursive).
Proof.
  intros Hnd. unfold get_md_files. destruct (is_file fs p).
  - destruct (str_eqb (lower (suffix p)) (lit ".md"));
      repeat constructor. intros [].
  - apply NoDup_filter.
    apply (Permutation_NoDup (Permutation_sym (sorted_permutation _))).
    unfold glob. destruct recursive; cbn [str_eqb]; vm_compute str_eqb;
      cbv iota; now apply NoDup_filter.
Qed.

Lemma no_file_twice_witness :
  NoDup (get_md_files sample_md_dir [lit "docs"] true).
Proof.
  apply (no_file_twice sample_md_dir [lit "docs"] true).
  vm_compute. repeat constructor; cbn; intuition discriminate.
Defined.

(** ** Further properties of the generators *)

Lemma split_slash_nonempty s : split_slash s <> [].
Proof.
  destruct s as [|c t]; cbn; [discriminate|].
  destruct (Ascii.eqb c "/"%char); [discriminate|].
  destruct (split_slash t); discriminate.
Qed.

Lemma split_slash_plain e : has_slash e = false -> split_slash e = [e].
Proof.
  induction e as [|c e IH]; [reflexivity|]. unfold has_slash. cbn.
  intros H. apply orb_false_iff in H. destruct H as [Hc He].
  rewrite Hc, (IH He). reflexivity.
Qed.

Lemma map_last_cons (A : Type) (f : A -> A) a l :
  l <> [] -> map_last f (a :: l) = a :: map_last f l.
Proof. destruct l; [congruence|reflexivity]. Qed.

Lemma last_cons_nonempty (A : Type) (a d : A) l :
  l <> [] -> last (a :: l) d = last l d.
Proof. destruct l; [congruence|reflexivity]. Qed.

Lemma map_last_nonempty (A : Type) (f : A -> A) l :
  l <> [] -> map_last f l <> [].
Proof. destruct l as [|a [|b l]]; [congruence|discriminate|discriminate]. Qed.

Lemma last_map_last (A : Type) (f : A -> A) l d :
  l <> [] -> last (map_last f l) d = f (last l d).
Proof.
  induction l as [|a l IH]; [congruence|]. intros _.
  destruct l as [|b l]; [reflexivity|].
  rewrite map_last_cons by discriminate.
  rewrite last_cons_nonempty by (apply map_last_nonempty; discriminate).
  rewrite (last_cons_nonempty a d (l := b :: l)) by discriminate.
  apply IH. discriminate.
Qed.

Lemma split_slash_app x e :
  has_slash e = false ->
  split_slash (x ++ e) = map_last (fun l => l ++ e) (split_slash x).
Proof.
  intros He. induction x as [|c x IH]; cbn [app split_slash].
  - now rewrite split_slash_plain.
  - destruct (Ascii.eqb c "/"%char).
    + rewrite map_last_cons by apply split_slash_nonempty. now rewrite IH.
    + rewrite IH. pose proof (split_slash_nonempty x) as Hne.
      destruct (split_slash x) as [|l0 [|b r]]; [contradiction| |];
        reflexivity.
Qed.

Lemma last_filter (f : str -> bool) l d :
  l <> [] -> f (last l d) = true -> last (filter f l) d = last l d.
Proof.
  induction l as [|a l IH]; [congruence|]. intros _ Hf.
  destruct l as [|b l].
  - cbn in *. now rewrite Hf.
  - change (last (a :: b :: l) d) with (last (b :: l) d) in *.
    assert (IH' := IH ltac:(discriminate) Hf).
    cbn [filter] in *. destruct (f a); [|exact IH'].
    destruct (f b) eqn:Hb.
    + exact IH'.
    + destruct (filter f l) eqn:E; [|exact IH'].
      exfalso. clear IH. cbn in IH'.
      assert (Hin : In (last (b :: l) d) (filter f (b :: l))).
      { apply filter_In. split; [|exact Hf].
        clear. revert b. induction l as [|c l IHl]; intros b; [now left|].
        right. apply IHl. }
      cbn [filter] in Hin. rewrite Hb, E in Hin. destruct Hin.
Qed.

Lemma startswith_app_self p s : startswith p (p ++ s) = true.
Proof.
  induction p as [|c p IH]; [reflexivity|]. cbn.
  now rewrite Ascii.eqb_refl.
Qed.

Lemma endswith_app y ext : endswith ext (y ++ ext) = true.
Proof.
  unfold endswith. rewrite rev_app_distr. apply startswith_app_self.
Qed.

Lemma last_app_nonempty (A : Type) (d a : A) (l l' : list A) :
  l' <> [] -> last (l ++ l') d = last l' d.
Proof.
  intros H. destruct l' as [|x l'] using rev_ind; [congruence|].
  now rewrite app_assoc, !last_last.
Qed.

(** The name of [directory / (x ++ ext)] ends with [ext]. *)
Lemma path_div_extension directory x ext :
  has_slash ext = false -> 2 <= length ext ->
  endswith ext (name (path_div directory (x ++ ext))) = true.
Proof.
  intros Hs Hlen.
  assert (Hlast : last (split_slash (x ++ ext)) []
                  = last (split_slash x) [] ++ ext).
  { rewrite split_slash_app by assumption.
    apply last_map_last, split_slash_nonempty. }
  assert (Hkeep : (fun s => negb (str_eqb s [])
                            && negb (str_eqb s (lit ".")))
                    (last (split_slash (x ++ ext)) []) = true).
  { rewrite Hlast. set (y := last (split_slash x) []).
    unfold str_eqb.
    destruct (list_eq_dec ascii_dec (y ++ ext) []) as [E|_].
    - apply (f_equal (@length _)) in E. rewrite length_app in E.
      cbn in E. lia.
    - destruct (list_eq_dec ascii_dec (y ++ ext) (lit ".")) as [E|_];
        [|reflexivity].
      apply (f_equal (@length _)) in E. rewrite length_app in E.
      cbn in E. lia. }
  assert (Hseg : last (segments (x ++ ext)) [] = last (split_slash x) [] ++ ext).
  { unfold segments. rewrite last_filter; auto using split_slash_nonempty. }
  assert (Hne : segments (x ++ ext) <> []).
  { intros E. rewrite E in Hseg. cbn in Hseg.
    symmetry in Hseg. apply (f_equal (@length _)) in Hseg.
    rewrite length_app in Hseg. cbn in Hseg. lia. }
  unfold name, path_div.
  destruct (startswith (lit "/") (x ++ ext));
    rewrite ?last_app_nonempty by assumption;
    rewrite Hseg; apply endswith_app.
Qed.

Lemma generate_pdf_returned w input_path output_dir title watermark f :
  ending (generate_pdf w input_path output_dir title watermark) = Returned f ->
  exists version,
    get_export_version w = Some version
    /\ f = path_div output_dir
             (artifact_name (files w) input_path version (lit ".pdf")).
Proof.
  unfold generate_pdf, artifact_name, raised, exited.
  destruct (get_export_version w) as [version|]; [|discriminate].
  cbv zeta.
  destruct (path_exists (files w) input_path); cbn [negb];
    [|discriminate].
  destruct (no_files _); [discriminate|].
  destruct (convert_all w _) as [msgs ok].
  destruct ok; cbn [negb]; [|discriminate].
  destruct (mkdir w _); cbn [negb]; [|discriminate].
  destruct (write_pdf w _); [|discriminate].
  cbn. intros H. injection H as <-. eauto.
Qed.

Lemma generate_epub_returned w input_path output_dir title g :
  ending (generate_epub w input_path output_dir title) = Returned g ->
  exists version,
    get_export_version w = Some version
    /\ g = path_div output_dir
             (artifact_name (files w) input_path version (lit ".epub")).
Proof.
  unfold generate_epub, artifact_name, raised, exited.
  destruct (get_export_version w) as [version|]; [|discriminate].
  cbv zeta.
  destruct (path_exists (files w) input_path); cbn [negb];
    [|discriminate].
  destruct (no_files _); [discriminate|].
  destruct (convert_all w _) as [msgs ok].
  destruct ok; cbn [negb]; [|discriminate].
  destruct (mkdir w _); cbn [negb]; [|discriminate].
  destruct (write_epub w _); try discriminate;
    cbn; intros H; injection H as <-; eauto.
Qed.

Lemma artifact_name_assoc fs input_path version ext :
  artifact_name fs input_path version ext
  = (derived_name fs input_path ++ lit "_v" ++ version) ++ ext.
Proof. unfold artifact_name. now rewrite <- !app_assoc. Qed.

(** X10. Whatever the input path and the text of the version file, even
    with slashes in it, the file a generator returns has a name that ends
    in the extension of its format; the PDF and the EPUB made from the same
    input are therefore never the same file. *)
Theorem artifact_has_extension w input_path output_dir title watermark f g :
  ending (generate_pdf w input_path output_dir title watermark)
    = Returned f ->
  ending (generate_epub w input_path output_dir title) = Returned g ->
  endswith (lit ".pdf") (name f) = true
  /\ endswith (lit ".epub") (name g) = true
  /\ f <> g.
Proof.
  intros Hf Hg.
  apply generate_pdf_returned in Hf. destruct Hf as (vf & _ & Hf).
  apply generate_epub_returned in Hg. destruct Hg as (vg & _ & Hg).
  assert (Hpdf : endswith (lit ".pdf") (name f) = true).
  { rewrite Hf, artifact_name_assoc.
    apply path_div_extension; [reflexivity|cbn; lia]. }
  assert (Hepub : endswith (lit ".epub") (name g) = true).
  { rewrite Hg, artifact_name_assoc.
    apply path_div_extension; [reflexivity|cbn; lia]. }
  repeat split; auto. clear Hf Hg. intros E. subst g.
  unfold endswith in Hpdf, Hepub.
  cbn [lit list_ascii_of_string rev app] in Hpdf, Hepub.
  destruct (rev (name f)) as [|c t]; [discriminate|].
  cbn [startswith] in Hpdf, Hepub.
  apply andb_true_iff in Hpdf, Hepub.
  destruct Hpdf as [Hc1 _]. destruct Hepub as [Hc2 _].
  apply Ascii.eqb_eq in Hc1, Hc2. congruence.
Qed.

Lemma artifact_has_extension_witness :
  let w := {| files := sample_md_dir; version_file := VersionText (lit "1/2");
              converts := fun _ => true; mkdir := fun _ => true;
              write_pdf := fun _ => true;
              write_epub := fun _ => EpubWriteIgnored |} in
  endswith (lit ".pdf")
    (name (path_div [lit "output"]
             (artifact_name (files w) [lit "docs"] (lit "1/2") (lit ".pdf"))))
    = true
  /\ endswith (lit ".epub")
       (name (path_div [lit "output"]
                (artifact_name (files w) [lit "docs"] (lit "1/2")
                   (lit ".epub"))))
     = true
  /\ path_div [lit "output"]
       (artifact_name (files w) [lit "docs"] (lit "1/2") (lit ".pdf"))
     <> path_div [lit "output"]
          (artifact_name (files w) [lit "docs"] (lit "1/2") (lit ".epub")).
Proof.
  apply (artifact_has_extension
    {| files := sample_md_dir; version_file := VersionText (lit "1/2");
       converts := fun _ => true; mkdir := fun _ => true;
       write_pdf := fun _ => true;
       write_epub := fun _ => EpubWriteIgnored |}
    [lit "docs"] [lit "output"] None None).
  - vm_compute. reflexivity.
  - vm_compute. reflexivity.
Defined.

Lemma convert_all_done w md_files :
  (forall md_file, In md_file md_files -> converts w md_file = true) ->
  convert_all w md_files = (processing md_files, true).
Proof.
  induction md_files as [|f rest IH]; intros H; [reflexivity|].
  cbn [convert_all]. rewrite (H f (or_introl eq_refl)).
  rewrite IH by (intros g Hg; apply H; now right). reflexivity.
Qed.

Lemma convert_all_stops w before bad after :
  (forall md_file, In md_file before -> converts w md_file = true) ->
  converts w bad = false ->
  convert_all w (before ++ bad :: after)
  = (processing (before ++ [bad]), false).
Proof.
  induction before as [|f rest IH]; intros H Hbad; cbn [app convert_all].
  - now rewrite Hbad.
  - rewrite (H f (or_introl eq_refl)).
    rewrite IH by (auto; intros g Hg; apply H; now right). reflexivity.
Qed.

(** X11. When reading or converting one of the collected files fails,
    the generator stops there: the exception propagates and nothing is
    written; once the version is read, the files before the failing one
    and the failing one have been announced, and none after it. *)
Theorem conversion_failure_stops w input_path output_dir title watermark
    before bad after :
  path_exists (files w) input_path = true ->
  get_md_files (files w) input_path true = before ++ bad :: after ->
  (forall md_file, In md_file before -> converts w md_file = true) ->
  converts w bad = false ->
  let pdf := generate_pdf w input_path output_dir title watermark in
  let epub := generate_epub w input_path output_dir title in
  (ending pdf = Raised /\ written pdf = []
   /\ ending epub = Raised /\ written epub = [])
  /\ forall version, get_export_version w = Some version ->
     let announced :=
       Found (length (before ++ bad :: after)) input_path version
       :: processing (before ++ [bad]) in
     pdf = {| printed := announced; ending := Raised; written := [] |}
     /\ epub = {| printed := announced; ending := Raised; written := [] |}.
Proof.
  intros Hex Hmd Hbefore Hbad pdf epub. subst pdf epub.
  unfold generate_pdf, generate_epub, raised.
  destruct (get_export_version w) as [v|].
  - cbv zeta. rewrite Hex, Hmd. cbn [negb].
    replace (no_files (before ++ bad :: after)) with false
      by (now destruct before).
    rewrite (convert_all_stops w before bad after Hbefore Hbad).
    cbn [negb ending written]. split; [repeat split|].
    intros version Hv. injection Hv as <-. split; reflexivity.
  - cbn [ending written]. split; [repeat split|]. discriminate.
Qed.

Lemma conversion_failure_stops_witness :
  let w := {| files := sample_md_dir; version_file := NoVersionFile;
              converts := fun f =>
                negb (path_eqb f [lit "docs"; lit "02-getting-started.md"]);
              mkdir := fun _ => true; write_pdf := fun _ => true;
              write_epub := fun _ => EpubWritten |} in
  generate_pdf w [lit "docs"] [lit "output"] None None
  = {| printed := [Found 3 [lit "docs"] (lit "0.0");
                   Processing (lit "01-intro.md");
                   Processing (lit "02-getting-started.md")];
       ending := Raised; written := [] |}
  /\ written (generate_epub w [lit "docs"] [lit "output"] None) = [].
Proof.
  intro w.
  destruct (conversion_failure_stops w [lit "docs"] [lit "output"] None None
              [[lit "docs"; lit "01-intro.md"]]
              [lit "docs"; lit "02-getting-started.md"]
              [[lit "docs"; lit "subdir"; lit "03-advanced.md"]])
    as [(_ & _ & _ & Hepub) Hpdf].
  - vm_compute. reflexivity.
  - vm_compute. reflexivity.
  - intros f [<-|[]]. vm_compute. reflexivity.
  - vm_compute. reflexivity.
  - split; [|exact Hepub].
    destruct (Hpdf (lit "0.0") eq_refl) as [E _]. rewrite E.
    vm_compute. reflexivity.
Defined.

(** ** Chapter titles and chapter files *)

Lemma replace_from_nil h tl new : replace_from h tl new [] = [].
Proof. now simp replace_from. Qed.

Lemma replace_from_cons h tl new c t :
  replace_from h tl new (c :: t)
  = if startswith (h :: tl) (c :: t)
    then new ++ replace_from h tl new (skipn (S (length tl)) (c :: t))
    else c :: replace_from h tl new t.
Proof.
  simp replace_from.
  destruct (startswith (h :: tl) (c :: t)) eqn:E; cbn; reflexivity.
Qed.

Lemma startswith_split p : forall s,
  startswith p s = true -> s = p ++ skipn (length p) s.
Proof.
  induction p as [|a p IH]; intros s H; [reflexivity|].
  destruct s as [|b s]; [discriminate|]. cbn in H.
  apply andb_true_iff in H. destruct H as [Hab Hp].
  apply Ascii.eqb_eq in Hab. subst b. cbn. f_equal. now apply IH.
Qed.

Lemma startswith_decomp p s :
  startswith p s = true -> exists r, s = p ++ r.
Proof. intros H. eexists. now apply startswith_split. Qed.

Lemma replace_from_absent h tl new s :
  is_infix (h :: tl) s = false -> replace_from h tl new s = s.
Proof.
  induction s as [|c t IH]; intros H; [apply replace_from_nil|].
  cbn [is_infix] in H. apply orb_false_iff in H. destruct H as [Hsw Ht].
  rewrite replace_from_cons, Hsw. f_equal. now apply IH.
Qed.

Definition unescape_lt (s : str) : str := replace ent_lt [chr_lt] s.
Definition unescape_gt (s : str) : str := replace ent_gt [chr_gt] s.

Lemma unescape_lt_nil : unescape_lt [] = [].
Proof. apply replace_from_nil. Qed.

Lemma unescape_gt_nil : unescape_gt [] = [].
Proof. apply replace_from_nil. Qed.

Lemma unescape_lt_entity r : unescape_lt (ent_lt ++ r) = chr_lt :: unescape_lt r.
Proof.
  unfold unescape_lt, replace, ent_lt. cbn [lit list_ascii_of_string app].
  rewrite replace_from_cons. cbn [startswith].
  rewrite !Ascii.eqb_refl. reflexivity.
Qed.

Lemma unescape_gt_entity r : unescape_gt (ent_gt ++ r) = chr_gt :: unescape_gt r.
Proof.
  unfold unescape_gt, replace, ent_gt. cbn [lit list_ascii_of_string app].
  rewrite replace_from_cons. cbn [startswith].
  rewrite !Ascii.eqb_refl. reflexivity.
Qed.

Lemma unescape_lt_other c t :
  startswith ent_lt (c :: t) = false ->
  unescape_lt (c :: t) = c :: unescape_lt t.
Proof.
  intros H. unfold unescape_lt, replace, ent_lt in *.
  cbn [lit list_ascii_of_string] in *. now rewrite replace_from_cons, H.
Qed.

Lemma unescape_gt_other c t :
  startswith ent_gt (c :: t) = false ->
  unescape_gt (c :: t) = c :: unescape_gt t.
Proof.
  intros H. unfold unescape_gt, replace, ent_gt in *.
  cbn [lit list_ascii_of_string] in *. now rewrite replace_from_cons, H.
Qed.

Lemma EntGt_Ent s s' : EntGt s s' -> Ent s s'.
Proof. induction 1; constructor; auto. Qed.

Lemma Ent_plain_prefix p : forall r t',
  plain p = true -> Ent (p ++ r) t' ->
  exists r', t' = p ++ r' /\ Ent r r'.
Proof.
  induction p as [|a p IH]; intros r t' Hp HE; [exists t'; auto|].
  cbn in Hp. apply andb_true_iff in Hp. destruct Hp as [Ha Hp].
  inversion HE; subst.
  - destruct (IH _ _ Hp H2) as (r' & -> & Hr). exists r'. auto.
  - discriminate Ha.
  - discriminate Ha.
Qed.

Lemma EntGt_plain_prefix p : forall r t',
  plain p = true -> EntGt (p ++ r) t' ->
  exists r', t' = p ++ r' /\ EntGt r r'.
Proof.
  induction p as [|a p IH]; intros r t' Hp HE; [exists t'; auto|].
  cbn in Hp. apply andb_true_iff in Hp. destruct Hp as [Ha Hp].
  inversion HE; subst.
  - destruct (IH _ _ Hp H2) as (r' & -> & Hr). exists r'. auto.
  - discriminate Ha.
Qed.

Lemma entity_start (body : str) c t t' :
  plain body = true -> Ent t t' ->
  startswith ("&"%char :: body) (c :: t')
  = startswith ("&"%char :: body) (c :: t).
Proof.
  intros Hb HE. cbn [startswith]. now rewrite (Ent_startswith body Hb HE).
Qed.

(** Undoing the [&lt;] of an escaped string leaves only its [&gt;]. *)
Lemma unescape_lt_Ent n : forall s s',
  length s <= n -> Ent s s' -> EntGt (unescape_lt s) (unescape_lt s').
Proof.
  induction n as [|n IH]; intros s s' Hlen HE.
  - destruct s; [|cbn in Hlen; lia]. inversion HE; subst.
    rewrite unescape_lt_nil. constructor.
  - inversion HE as [|c t t' Ht|t t' Ht|t t' Ht]; subst.
    + rewrite unescape_lt_nil. constructor.
    + cbn in Hlen.
      destruct (startswith ent_lt (c :: t)) eqn:Hsw.
      * destruct (startswith_decomp _ _ Hsw) as [r E].
        unfold ent_lt in E. cbn [lit list_ascii_of_string app] in E.
        injection E as -> ->.
        destruct (@Ent_plain_prefix (lit "lt;") r t' eq_refl Ht)
          as (r' & -> & Hr).
        change ("&"%char :: "l"%char :: "t"%char :: ";"%char :: r)
          with (ent_lt ++ r).
        change ("&"%char :: "g"%char :: "t"%char :: ";"%char :: r)
          with (ent_gt ++ r).
        change ("&"%char :: lit "lt;" ++ r') with (ent_lt ++ r').
        rewrite !unescape_lt_entity. constructor. apply IH; [|exact Hr].
        cbn in Hlen. lia.
      * assert (Hsw' : startswith ent_lt (c :: t') = false).
        { rewrite <- Hsw. apply (entity_start (lit "lt;")); auto. }
        rewrite !unescape_lt_other by assumption.
        constructor. apply IH; [lia|exact Ht].
    + cbn in Hlen. rewrite unescape_lt_entity.
      rewrite unescape_lt_other by reflexivity.
      constructor. apply IH; [lia|exact Ht].
    + cbn in Hlen. rewrite unescape_lt_other by reflexivity.
      unfold ent_gt. cbn [lit list_ascii_of_string app].
      rewrite !unescape_lt_other by reflexivity.
      apply EntGt_gt. apply IH; [lia|exact Ht].
Qed.

Lemma unescape_gt_EntGt n : forall a b,
  length a <= n -> EntGt a b -> unescape_gt b = unescape_gt a.
Proof.
  induction n as [|n IH]; intros a b Hlen HE.
  - destruct a; [|cbn in Hlen; lia]. now inversion HE.
  - inversion HE as [|c t t' Ht|t t' Ht]; subst.
    + reflexivity.
    + cbn in Hlen.
      destruct (startswith ent_gt (c :: t)) eqn:Hsw.
      * destruct (startswith_decomp _ _ Hsw) as [r E].
        unfold ent_gt in E. cbn [lit list_ascii_of_string app] in E.
        injection E as -> ->.
        destruct (@EntGt_plain_prefix (lit "gt;") r t' eq_refl Ht)
          as (r' & -> & Hr).
        change ("&"%char :: "l"%char :: "t"%char :: ";"%char :: r)
          with (ent_lt ++ r).
        change ("&"%char :: "g"%char :: "t"%char :: ";"%char :: r)
          with (ent_gt ++ r).
        change ("&"%char :: lit "gt;" ++ r') with (ent_gt ++ r').
        rewrite !unescape_gt_entity. f_equal. apply IH; [|exact Hr].
        cbn in Hlen. lia.
      * assert (Hsw' : startswith ent_gt (c :: t') = false).
        { rewrite <- Hsw.
          apply (entity_start (lit "gt;")); auto using EntGt_Ent. }
        rewrite !unescape_gt_other by assumption.
        f_equal. apply IH; [lia|exact Ht].
    + cbn in Hlen. rewrite unescape_gt_entity.
      rewrite unescape_gt_other by reflexivity.
      f_equal. apply IH; [lia|exact Ht].
Qed.

Lemma unescape_entities_Ent s s' :
  Ent s s' -> unescape_entities s' = unescape_entities s.
Proof.
  intros HE. unfold unescape_entities.
  change (unescape_gt (unescape_lt s') = unescape_gt (unescape_lt s)).
  apply (unescape_gt_EntGt (n := length (unescape_lt s))); [lia|].
  apply (unescape_lt_Ent (n := length s)); [lia|exact HE].
Qed.

Lemma startswith_is_infix q t : startswith q t = true -> is_infix q t = true.
Proof. intros H. destruct t; cbn [is_infix]; now rewrite H. Qed.

Lemma is_infix_cons q a t : is_infix q t = true -> is_infix q (a :: t) = true.
Proof. intros H. cbn [is_infix]. rewrite H. apply orb_true_r. Qed.

Lemma is_infix_skipn q k : forall t,
  is_infix q (skipn k t) = true -> is_infix q t = true.
Proof.
  induction k as [|k IH]; intros t H; [exact H|].
  destruct t as [|a t]; [exact H|]. apply is_infix_cons, IH, H.
Qed.

(** What a replaced string begins with, the string began with, as long as
    the character put in is not part of it. *)
Lemma startswith_replace_inv h tl nw q :
  ~ In nw q -> forall t,
  startswith q (replace_from h tl [nw] t) = true -> startswith q t = true.
Proof.
  induction q as [|c q IH]; intros Hn t H; [reflexivity|].
  destruct t as [|a t].
  - rewrite replace_from_nil in H. discriminate.
  - rewrite replace_from_cons in H.
    destruct (startswith (h :: tl) (a :: t)).
    + cbn in H. apply andb_true_iff in H. destruct H as [Hc _].
      apply Ascii.eqb_eq in Hc. elim Hn. left. congruence.
    + cbn in H. apply andb_true_iff in H. destruct H as [Hc Hq].
      cbn. rewrite Hc. cbn. apply IH; [|exact Hq].
      intros Hin. apply Hn. now right.
Qed.

(** A replacement brings in no occurrence of a string that the character
    put in is not part of. *)
Lemma replace_no_new_occurrence h tl nw q n :
  ~ In nw q -> forall t, length t <= n ->
  is_infix q (replace_from h tl [nw] t) = true -> is_infix q t = true.
Proof.
  intros Hn. induction n as [|n IH]; intros t Hlen H.
  - destruct t; [|cbn in Hlen; lia]. now rewrite replace_from_nil in H.
  - destruct t as [|a t]; [now rewrite replace_from_nil in H|].
    pose proof (@startswith_replace_inv h tl nw q Hn (a :: t)) as Hinv.
    rewrite replace_from_cons in H, Hinv.
    destruct (startswith (h :: tl) (a :: t)).
    + cbn [app is_infix] in H. apply orb_true_iff in H.
      destruct H as [H|H].
      * apply startswith_is_infix, Hinv, H.
      * apply (@is_infix_skipn q (S (length tl))).
        apply IH; [|exact H].
        pose proof (length_skipn (S (length tl)) (a :: t)).
        cbn [length] in *. lia.
    + cbn [is_infix] in H. apply orb_true_iff in H. destruct H as [H|H].
      * apply startswith_is_infix, Hinv, H.
      * apply is_infix_cons, IH; [cbn in Hlen; lia|exact H].
Qed.

(** After a replacement no occurrence of the replaced string is left, as
    long as the character put in is not part of it. *)
Lemma replace_leaves_none h tl nw n :
  ~ In nw (h :: tl) -> forall t, length t <= n ->
  is_infix (h :: tl) (replace_from h tl [nw] t) = false.
Proof.
  intros Hn. induction n as [|n IH]; intros t Hlen.
  - destruct t; [|cbn in Hlen; lia]. now rewrite replace_from_nil.
  - destruct t as [|a t]; [now rewrite replace_from_nil|].
    pose proof (@startswith_replace_inv h tl nw (h :: tl) Hn (a :: t))
      as Hinv.
    rewrite replace_from_cons in Hinv |- *.
    destruct (startswith (h :: tl) (a :: t)) eqn:E.
    + cbn [app is_infix]. apply orb_false_iff. split.
      * cbn. destruct (Ascii.eqb_spec h nw) as [->|_]; [|reflexivity].
        elim Hn. now left.
      * apply IH. pose proof (length_skipn (S (length tl)) (a :: t)).
        cbn [length] in *. lia.
    + cbn [is_infix]. apply orb_false_iff. split.
      * destruct (startswith (h :: tl) (a :: replace_from h tl [nw] t))
          eqn:F; [|reflexivity].
        specialize (Hinv eq_refl). congruence.
      * apply IH. cbn in Hlen. lia.
Qed.

(** X12. The two replacements that make a chapter title from the text
    of the first heading leave neither [&lt;] nor [&gt;] in the title; and
    when that text is a text without these entities in which any of the
    [<] and [>] are written as entities, the title is that text. *)
Theorem title_entities_resolved group :
  is_infix ent_lt (unescape_entities group) = false
  /\ is_infix ent_gt (unescape_entities group) = false
  /\ (forall text,
        Ent text group ->
        is_infix ent_lt text = false -> is_infix ent_gt text = false ->
        unescape_entities group = text).
Proof.
  split; [|split].
  - destruct (is_infix ent_lt (unescape_entities group)) eqn:E;
      [|reflexivity].
    unfold unescape_entities in E.
    apply (@replace_no_new_occurrence "&"%char (lit "gt;") chr_gt ent_lt
             (length (replace ent_lt [chr_lt] group))) in E.
    + rewrite <- E.
      apply (@replace_leaves_none "&"%char (lit "lt;") chr_lt
               (length group)); [|lia].
      vm_compute. intuition discriminate.
    + vm_compute. intuition discriminate.
    + lia.
  - apply (@replace_leaves_none "&"%char (lit "gt;") chr_gt
             (length (replace ent_lt [chr_lt] group))); [|lia].
    vm_compute. intuition discriminate.
  - intros text HE Hlt Hgt. rewrite (unescape_entities_Ent HE).
    unfold unescape_entities, replace, ent_lt, ent_gt in *.
    cbn [lit list_ascii_of_string] in *.
    rewrite (replace_from_absent _ _ _ _ Hlt).
    now rewrite (replace_from_absent _ _ _ _ Hgt).
Qed.

Lemma title_entities_resolved_witness :
  unescape_entities (lit "Map&lt;K, V> &amp;lt; x&gt;")
  = lit "Map<K, V> &amp;lt; x>".
Proof.
  apply (proj2 (proj2 (title_entities_resolved
                         (lit "Map&lt;K, V> &amp;lt; x&gt;")))).
  - repeat first [ exact Ent_nil
                 | refine (Ent_lt (s := _) (s' := _) _)
                 | refine (Ent_gt (s := _) (s' := _) _)
                 | refine (Ent_keep _ _) ].
  - vm_compute. reflexivity.
  - vm_compute. reflexivity.
Defined.

Lemma read_decimal n : read_number (decimal n) = Some n.
Proof.
  unfold read_number, decimal.
  rewrite string_of_list_ascii_of_string, DecimalString.NilEmpty.usu.
  cbn [option_map]. now rewrite DecimalNat.Unsigned.of_to.
Qed.

Lemma read_format_02d n : read_number (format_02d n) = Some n.
Proof.
  unfold format_02d. cbv zeta.
  destruct (length (decimal n) <? 2); [|apply read_decimal].
  pose proof (read_decimal n) as H. unfold read_number in *.
  cbn [string_of_list_ascii DecimalString.NilEmpty.uint_of_string].
  destruct (DecimalString.NilEmpty.uint_of_string
              (string_of_list_ascii (decimal n))) as [d|];
    [|discriminate].
  cbn in *. exact H.
Qed.

(** X13. The number of a chapter can be read back from its file name, so
    that two chapters never share a file name, also beyond the ninety-ninth
    chapter, where the number takes three digits. *)
Theorem chapter_file_names_distinct i j :
  (exists number,
     chapter_file_name i = lit "chapter_" ++ number ++ lit ".xhtml"
     /\ read_number number = Some (i + 1)
     /\ 2 <= length number)
  /\ (i <> j -> chapter_file_name i <> chapter_file_name j).
Proof.
  split.
  - exists (format_02d (i + 1)). split; [reflexivity|].
    split; [apply read_format_02d|]. unfold format_02d. cbv zeta.
    destruct (length (decimal (i + 1)) <? 2) eqn:E.
    + assert (Hne : decimal (i + 1) <> []).
      { intros Hd. pose proof (read_decimal (i + 1)) as H.
        rewrite Hd in H. cbn in H. injection H as H. lia. }
      destruct (decimal (i + 1)); [contradiction|]. cbn. lia.
    + apply Nat.ltb_ge in E. exact E.
  - unfold chapter_file_name. intros Hij E. apply Hij.
    apply app_inv_head in E. apply app_inv_tail in E.
    apply (f_equal read_number) in E. rewrite !read_format_02d in E.
    injection E as E. lia.
Qed.

Lemma chapter_file_names_distinct_witness :
  chapter_file_name 8 <> chapter_file_name 98.
Proof.
  apply (proj2 (chapter_file_names_distinct 8 98)). lia.
Defined.

(** ** The version and the entry point *)

Lemma strip_first s c t : strip s = c :: t -> is_space c = false.
Proof.
  intros H. destruct (rstrip_decomp (lstrip s)) as (ws & E & _).
  fold (strip s) in E. rewrite H in E. cbn in E.
  now apply lstrip_first in E.
Qed.

Lemma strip_last s t c : strip s = t ++ [c] -> is_space c = false.
Proof.
  unfold strip. intros H. apply (f_equal (@rev _)) in H.
  rewrite rev_involutive, rev_app_distr in H. cbn in H.
  now apply lstrip_first in H.
Qed.

(** A text is its stripped form between two runs of white space. *)
Lemma strip_decomp s :
  exists before after,
    s = before ++ strip s ++ after
    /\ forallb is_space before = true
    /\ forallb is_space after = true.
Proof.
  destruct (rstrip_decomp (lstrip s)) as (ws & E & Hws).
  fold (strip s) in E.
  exists (take_while is_space s), ws. split; [|split].
  - rewrite <- E. unfold lstrip. now rewrite take_drop_while.
  - apply take_while_all.
  - exact Hws.
Qed.

(** X14. The version is [0.0] when the version file is missing; when the
    file is there and can be read, it is the text of the file without the
    white space around it: the text is the version between two runs of
    white space, and the version neither begins nor ends with a white
    space character, so that a final line break in the file does not reach
    the name of the artifact; when the file cannot be read, the call
    raises. *)
Theorem version_is_stripped_text w :
  (version_file w = NoVersionFile -> get_export_version w = Some (lit "0.0"))
  /\ (version_file w = VersionUnreadable -> get_export_version w = None)
  /\ (forall text, version_file w = VersionText text ->
      exists before version after,
        get_export_version w = Some version
        /\ text = before ++ version ++ after
        /\ forallb is_space before = true
        /\ forallb is_space after = true
        /\ (forall c t, version = c :: t -> is_space c = false)
        /\ (forall t c, version = t ++ [c] -> is_space c = false)).
Proof.
  unfold get_export_version. split; [|split].
  - now intros ->.
  - now intros ->.
  - intros text ->.
    destruct (strip_decomp text) as (before & after & E & Hb & Ha).
    exists before, (strip text), after.
    split; [reflexivity|]. split; [exact E|]. split; [exact Hb|].
    split; [exact Ha|]. split.
    + apply strip_first.
    + apply strip_last.
Qed.

Lemma version_is_stripped_text_witness :
  exists before after,
    get_export_version
      {| files := []; version_file := VersionText (lit " 1.2 b" ++ [chr_nl]);
         converts := fun _ => true; mkdir := fun _ => true;
         write_pdf := fun _ => true; write_epub := fun _ => EpubWritten |}
    = Some (lit "1.2 b")
    /\ lit " 1.2 b" ++ [chr_nl] = before ++ lit "1.2 b" ++ after.
Proof.
  destruct (proj2 (proj2 (version_is_stripped_text
              {| files := []; version_file := VersionText (lit " 1.2 b" ++ [chr_nl]);
                 converts := fun _ => true; mkdir := fun _ => true;
                 write_pdf := fun _ => true;
                 write_epub := fun _ => EpubWritten |}))
              (lit " 1.2 b" ++ [chr_nl]) eq_refl)
    as (before & version & after & Hv & E & _).
  vm_compute in Hv. injection Hv as <-.
  exists before, after. split; [vm_compute; reflexivity|exact E].
Defined.




